(** * owldial: a shallow embedding of the media-stream server's dialog engine

    Models, from [cloud-run-media-stream/server.js] and
    [frontend/src/audio/mulaw.ts]:
    - the G.711 mu-law sample codec ([linear16ToMuLawSample],
      [muLawToLinear16Sample], the server's [muLawToLinearSample]);
    - the per-frame audio level ([calculateAudioLevel]);
    - the generation-tagged audio-send scheduler ([sendAudioViaWebSocket],
      [requestStopAudio]) as an interleaving of atomic JS segments;
    - the inbound media handler ([handleInboundMediaMessage]);
    - the turn loop ([processIncomingAudio]) and the intent classifier
      ([classifyUserTurnWithAI]);
    - the Express routing table of the HTTP server.

    JS numbers that hold integers are modelled as [Z]; the bit operations
    of the codec work on small non-negative values where JS's int32
    semantics and [Z]'s agree. *)

From Stdlib Require Import String Ascii ZArith Lia Bool List.
From Stdlib Require Import Reals Lra.
Import ListNotations.

Open Scope Z_scope.

(* ------------------------------------------------------------------ *)
(** ** G.711 mu-law codec (frontend/src/audio/mulaw.ts) *)

Module Mulaw.

Definition BIAS : Z := 132.   (* 0x84 *)
Definition CLIP : Z := 32635.

(** The exponent search loop
    [for (expMask = 0x4000; (pcm & expMask) === 0 && exponent > 0; expMask >>= 1) exponent--;]
    runs at most 7 times: [exponent] starts at 7 and the loop stops at 0. *)
Fixpoint exp_search (fuel : nat) (pcm expMask exponent : Z) : Z :=
  match fuel with
  | O => exponent
  | S f =>
      if (Z.land pcm expMask =? 0) && (exponent >? 0)
      then exp_search f pcm (Z.shiftr expMask 1) (exponent - 1)
      else exponent
  end.

(** [linear16ToMuLawSample].  In JS, [-(-32768)] is [32768], never
    negative, so the [if (pcm < 0) pcm = 32767] guard never fires there;
    it is kept as written.  Decoding [0x7F] yields JS [-0], for which
    [pcm < 0] is false exactly as for [0] here. *)
Definition linear16ToMuLawSample (sample : Z) : Z :=
  let '(sign, pcm0) :=
    if sample <? 0
    then (128, let p := - sample in if p <? 0 then 32767 else p)
    else (0, sample) in
  let pcm1 := if pcm0 >? CLIP then CLIP else pcm0 in
  let pcm := pcm1 + BIAS in
  let exponent := exp_search 7 pcm 16384 7 in
  let mantissa := Z.land (Z.shiftr pcm (exponent + 3)) 15 in
  Z.land (Z.lnot (Z.lor (Z.lor sign (Z.shiftl exponent 4)) mantissa)) 255.

(** [muLawToLinear16Sample]. *)
Definition muLawToLinear16Sample (muLawByte : Z) : Z :=
  let u := Z.land (Z.lnot muLawByte) 255 in
  let sign := Z.land u 128 in
  let exponent := Z.land (Z.shiftr u 4) 7 in
  let mantissa := Z.land u 15 in
  let pcm := Z.shiftl (Z.shiftl mantissa 3 + BIAS) exponent - BIAS in
  if sign =? 0 then pcm else - pcm.

(** The server's decoder [muLawToLinearSample] (server.js). *)
Definition muLawToLinearSample (muLawByte : Z) : Z :=
  let u := Z.land (Z.lnot muLawByte) 255 in
  let sign := if Z.land u 128 =? 0 then 1 else -1 in
  let exponent := Z.land (Z.shiftr u 4) 7 in
  let mantissa := Z.land u 15 in
  let magnitude := Z.shiftl (Z.shiftl mantissa 3 + 132) exponent in
  sign * (magnitude - 132).

(** The encoder's saturation of a sample to [+-CLIP]. *)
Definition clip (x : Z) : Z := Z.max (- CLIP) (Z.min CLIP x).

(** G.711 segment of a magnitude: the position of the leading bit of
    [|x| + BIAS] above bit 7, one of the eight segments 0..7; the
    quantisation step in segment [e] is [2^(e+3)], so the quantisation
    error is at most half of it. *)
Definition segment (x : Z) : Z := Z.min 7 (Z.max 0 (Z.log2 (Z.abs x + BIAS) - 7)).
Definition half_step (x : Z) : Z := 2 ^ (segment x + 2).

(** Exhaustive checkers over an integer range. *)
Fixpoint check_range (p : Z -> bool) (lo : Z) (k : nat) : bool :=
  match k with
  | O => true
  | S k' => p lo && check_range p (lo + 1) k'
  end.

Definition byte_roundtrip_ok (b : Z) : bool :=
  linear16ToMuLawSample (muLawToLinear16Sample b) =? (if b =? 127 then 255 else b).

Definition sample_roundtrip_ok (x : Z) : bool :=
  Z.abs (muLawToLinear16Sample (linear16ToMuLawSample x) - clip x) <=? half_step (clip x).

End Mulaw.



(** The typed-array helpers of mulaw.ts.  Storing a number into a
    [Uint8Array] / [Int16Array] element applies ToUint8 / ToInt16
    (reduction modulo 2^8 / 2^16, the latter into [-32768, 32767]). *)
Module MulawArray.
Import Mulaw.

Definition to_uint8 (v : Z) : Z := v mod 256.
Definition to_int16 (v : Z) : Z := (v + 32768) mod 65536 - 32768.

(** [pcm16ToMuLaw(pcm16)] *)
Definition pcm16ToMuLaw (pcm16 : list Z) : list Z :=
  map (fun x => to_uint8 (linear16ToMuLawSample x)) pcm16.

(** [muLawToPcm16(mulaw)] *)
Definition muLawToPcm16 (mulaw : list Z) : list Z :=
  map (fun b => to_int16 (muLawToLinear16Sample b)) mulaw.

End MulawArray.

(* ------------------------------------------------------------------ *)
(** ** Per-frame audio level (server.js, [calculateAudioLevel]) *)

Module Level.
Import Mulaw.

(** Number of [0xFF] (mu-law idle) bytes in a frame prefix. *)
Definition silent_count (pre : list Z) : nat :=
  length (filter (fun b => b =? 255) pre).

(** [sumSq], accumulated in the loop order.  The sum is an integer below
    [160 * 32124^2 < 2^53], so the JS double holds it exactly. *)
Definition sum_sq (pre : list Z) : Z :=
  fold_left (fun acc b => acc + muLawToLinearSample b * muLawToLinearSample b) pre 0.

(** [calculateAudioLevel].  The divisions and the square root are
    modelled in exact real arithmetic.  The fast-path test
    [silentCount / sampleSize > 0.95] is written as
    [100 * silentCount > 95 * sampleSize]: for [sampleSize <= 160] a
    rational [k/n] different from [19/20] lies at least [1/3200] away from
    it, far beyond the rounding of the double division, and [19/20] itself
    rounds to the same double as the literal [0.95]. *)
Definition calculateAudioLevel (mulawBuffer : list Z) : R :=
  match mulawBuffer with
  | [] => 0%R
  | _ =>
      let sampleSize := Nat.min 160 (length mulawBuffer) in
      let pre := firstn sampleSize mulawBuffer in
      if (95 * sampleSize <? 100 * silent_count pre)%nat then 0%R
      else
        let rms := sqrt (IZR (sum_sq pre) / INR sampleSize) in
        (rms / 32768 * 100)%R
  end.

End Level.

(* ------------------------------------------------------------------ *)
(** ** Audio-send scheduler (server.js, [sendAudioViaWebSocket],
       [requestStopAudio])

    Node runs one JS segment at a time; [sendAudioViaWebSocket] yields only
    at the 20 ms [await] between chunks.  The model is an interleaving of
    atomic steps: [EStart] (the synchronous prologue that allocates the
    generation), [EChunk g] (one loop iteration of the send with tag [g]:
    stop check, one chunk, and the epilogue after the last one) and
    [EStop] ([requestStopAudio]).  Splitting the prologue from the first
    iteration only adds interleavings.  The liveness checks that throw
    before the prologue (socket not open, no [streamSid]) leave the
    state untouched and are not modelled. *)

Module Sched.

Definition chunkSize : nat := 160.

(** [Math.ceil(mulawBuffer.length / chunkSize)]. *)
Definition totalChunks (buf : list Z) : nat :=
  (List.length buf + (chunkSize - 1)) / chunkSize.

(** [mulawBuffer.slice(i * chunkSize, min(start + chunkSize, length))]. *)
Definition chunk (buf : list Z) (i : nat) : list Z :=
  firstn chunkSize (skipn (i * chunkSize) buf).

(** [opts] of [sendAudioViaWebSocket]: [{label, uninterruptible}]. *)
Record send_opts := mkOpts { label : option string; uninterruptible : bool }.

Definition is_greeting (o : send_opts) : bool :=
  match label o with Some l => String.eqb l "greeting" | None => false end.

(** Progress of one call of [sendAudioViaWebSocket]: the next loop index,
    or finished with [sentChunks] and its return value [!wasInterrupted]. *)
Inductive pstat :=
| Running (i : nat)
| Finished (sentChunks : nat) (completed : bool).

Record proc := mkProc { pgen : nat; popts : send_opts; pbuf : list Z; pstatus : pstat }.

(** Messages written to the peer socket: a [media] frame or a [mark]. *)
Inductive wire :=
| WMedia (gen : nat) (payload : list Z)
| WMark (gen : nat).

Definition wgen (w : wire) : nat := match w with WMedia g _ => g | WMark g => g end.

(** The audio-send fields of the session object. *)
Record sched := mkSched {
  audioGenCounter : nat;
  activeAudioGen : option nat;
  stopAudioGen : option nat;
  uninterruptibleAudioGen : option nat;
  isSendingAudio : bool;
  greetingInProgress : bool;
  procs : list proc;
  out : list wire }.

Definition init : sched := mkSched 0 None None None false false [] [].

Definition opt_eqb (a b : option nat) : bool :=
  match a, b with
  | Some x, Some y => Nat.eqb x y
  | None, None => true
  | _, _ => false
  end.

(** Prologue of [sendAudioViaWebSocket] up to the loop. *)
Definition start_send (buf : list Z) (o : send_opts) (s : sched) : sched :=
  let gen := S (audioGenCounter s) in
  mkSched gen (Some gen) None
    (if uninterruptible o then Some gen else uninterruptibleAudioGen s)
    true
    (if is_greeting o then true else greetingInProgress s)
    (procs s ++ [mkProc gen o buf (Running 0)])
    (out s).

(** [session._stopAudioGen = x]. *)
Definition with_stop (s : sched) (x : option nat) : sched :=
  mkSched (audioGenCounter s) (activeAudioGen s) x
    (uninterruptibleAudioGen s) (isSendingAudio s) (greetingInProgress s)
    (procs s) (out s).

(** [requestStopAudio]; [_uninterruptibleAudioGen && ...] is JS
    truthiness, so a generation tag [0] would not count. *)
Definition requestStopAudio (s : sched) : sched :=
  if negb (isSendingAudio s) then s
  else
    let ignored :=
      match uninterruptibleAudioGen s with
      | Some u => negb (Nat.eqb u 0) && opt_eqb (Some u) (activeAudioGen s)
      | None => false
      end in
    if ignored then s
    else with_stop s (activeAudioGen s).

Definition find_proc (g : nat) (s : sched) : option proc :=
  find (fun p => Nat.eqb (pgen p) g) (procs s).

Definition set_status (g : nat) (st : pstat) (ps : list proc) : list proc :=
  map (fun p => if Nat.eqb (pgen p) g then mkProc (pgen p) (popts p) (pbuf p) st else p) ps.

Definition with_procs (s : sched) (ps : list proc) : sched :=
  mkSched (audioGenCounter s) (activeAudioGen s) (stopAudioGen s)
    (uninterruptibleAudioGen s) (isSendingAudio s) (greetingInProgress s) ps (out s).

Definition emit (s : sched) (w : wire) : sched :=
  mkSched (audioGenCounter s) (activeAudioGen s) (stopAudioGen s)
    (uninterruptibleAudioGen s) (isSendingAudio s) (greetingInProgress s)
    (procs s) (out s ++ [w]).

(** Epilogue after the loop: reset the flags that belong to this
    generation, clear [_greetingInProgress] for a greeting, send the
    [mark] unless interrupted. *)
Definition finish (p : proc) (sent : nat) (wasInterrupted : bool) (s : sched) : sched :=
  let g := pgen p in
  let mine := opt_eqb (activeAudioGen s) (Some g) in
  let s1 :=
    if mine
    then mkSched (audioGenCounter s) (activeAudioGen s)
           (if opt_eqb (stopAudioGen s) (Some g) then None else stopAudioGen s)
           (if opt_eqb (uninterruptibleAudioGen s) (Some g) then None
            else uninterruptibleAudioGen s)
           false (greetingInProgress s) (procs s) (out s)
    else s in
  let s2 :=
    if is_greeting (popts p)
    then mkSched (audioGenCounter s1) (activeAudioGen s1) (stopAudioGen s1)
           (uninterruptibleAudioGen s1) (isSendingAudio s1) false (procs s1) (out s1)
    else s1 in
  let s3 := if wasInterrupted then s2 else emit s2 (WMark g) in
  with_procs s3 (set_status g (Finished sent (negb wasInterrupted)) (procs s3)).

(** One iteration of the send loop of generation [g] (resumed after the
    20 ms pause): stop check, chunk [i], and the epilogue when it was the
    last one ([if (i < totalChunks - 1) await ...] is skipped). *)
Definition chunk_step (g : nat) (s : sched) : sched :=
  match find_proc g s with
  | Some p =>
      match pstatus p with
      | Running i =>
          let total := totalChunks (pbuf p) in
          if Nat.ltb i total then
            if opt_eqb (stopAudioGen s) (Some g) then finish p i true s
            else
              let s1 := emit s (WMedia g (chunk (pbuf p) i)) in
              if Nat.ltb (S i) total
              then with_procs s1 (set_status g (Running (S i)) (procs s1))
              else finish p (S i) false s1
          else finish p i false s
      | Finished _ _ => s
      end
  | None => s
  end.

Inductive ev :=
| EStart (buf : list Z) (o : send_opts)
| EChunk (g : nat)
| EStop.

Definition step (s : sched) (e : ev) : sched :=
  match e with
  | EStart buf o => start_send buf o s
  | EChunk g => chunk_step g s
  | EStop => requestStopAudio s
  end.

Definition run (evs : list ev) : sched := fold_left step evs init.

(** What a send of generation [g] writes when it runs to completion. *)
Definition expected (p : proc) : list wire :=
  map (fun i => WMedia (pgen p) (chunk (pbuf p) i)) (seq 0 (totalChunks (pbuf p)))
  ++ [WMark (pgen p)].

Definition progress (p : proc) : nat :=
  match pstatus p with
  | Running i => i
  | Finished k false => k
  | Finished _ true => S (totalChunks (pbuf p))
  end.

Definition filter_gen (g : nat) (ws : list wire) : list wire :=
  filter (fun w => Nat.eqb (wgen w) g) ws.

End Sched.

(* ------------------------------------------------------------------ *)
(** ** Inbound media handler (server.js, [handleInboundMediaMessage]) *)

Module Media.
Import Level.

(** The environment knobs read by the handler, as numbers
    ([Number(process.env.X || default)]); thresholds are taken integral. *)
Record vad_cfg := mkCfg {
  VAD_THRESHOLD : Z;
  VAD_THRESHOLD_WHILE_PLAYING : Z;
  SPEECH_WARMUP_FRAMES : nat;
  SPEECH_WARMUP_FRAMES_WHILE_PLAYING : nat;
  SILENCE_MS : Z;
  MIN_SPEECH_FRAMES : nat;
  MIN_SPEECH_BYTES : nat;
  MIN_SPEECH_MS : Z }.

Definition default_cfg : vad_cfg := mkCfg 2 6 2 4 300 10 1600 400.

(** [calculateAudioLevel(audioData) > threshold], decided exactly on
    integers (see [level_exceeds_spec]): for [th >= 0],
    [sqrt(S/n) / 32768 * 100 > th] iff [10000 * S > n * th^2 * 32768^2]. *)
Definition level_exceeds (th : Z) (buf : list Z) : bool :=
  if th <? 0 then true
  else
    match buf with
    | [] => false
    | _ =>
        let n := Nat.min 160 (List.length buf) in
        let pre := firstn n buf in
        if (95 * n <? 100 * silent_count pre)%nat then false
        else Z.of_nat n * (th * th) * (32768 * 32768) <? 10000 * sum_sq pre
    end.

(** The session fields the handler reads or writes. *)
Record media_state := mkMedia {
  greetingInProgress : bool;
  isSendingAudio : bool;
  startReceived : bool;
  streamSid : option string;
  connected : bool;
  speechActive : bool;
  segmentBuffers : list (list Z);
  segmentLastNonSilentIndex : Z;
  speechWarmup : nat;
  segmentStartMs : option Z;
  speechStartMs : option Z;
  lastSpeechMs : option Z;
  lastIncomingAudioTime : option Z;
  pendingProcessTimer : bool;
  pendingUserSegments : list (list Z) }.

(** A [media] event: [media.track], the decoded [media.payload]
    ([None] when the payload string is missing or empty, both falsy in
    JS) and the event's [streamSid]. *)
Record media_msg := mkMsg {
  track : option string;
  payload : option (list Z);
  msgStreamSid : option string }.

(** Observable effects of the handler, in program order. *)
Inductive effect :=
| BindStreamFromMedia (sid : string)   (* media before start: adopt its streamSid *)
| StartGreeting                        (* the greeting send started by [onStreamSidReady] *)
| SpeechStart                          (* [speech_start] *)
| RequestStop                          (* [requestStopAudio(session, "caller_speech")] *)
| CancelPending                        (* [clearTimeout(_pendingProcessTimer)] *)
| EosConfirmed (speechMs : Z) (bytes : nat) (frames : nat)  (* [eos_confirmed] log *)
| SegmentDrop                          (* [segment_drop ... too_small] *)
| PlayFiller                           (* [maybePlayFillerAizuchi(session)] *)
| QueueSegment (seg : list Z).         (* [queueOrMergeIncomingSegment(session, combined)] *)

Definition js_truthy_str (o : option string) : bool :=
  match o with Some x => negb (String.eqb x "") | None => false end.

(** JS [a || b] on a nullable timestamp. *)
Definition js_or_time (a : option Z) (b : Z) : Z :=
  match a with Some t => if t =? 0 then b else t | None => b end.

(** [if (track && track !== "inbound") return;] *)
Definition track_ignored (m : media_msg) : bool :=
  match track m with
  | Some t => negb (String.eqb t "") && negb (String.eqb t "inbound")
  | None => false
  end.

(** The greeting send as far as it runs synchronously: the prologue of
    [sendAudioViaWebSocket] sets [isSendingAudio] and
    [_greetingInProgress] and the loop sends the first chunk.  With two
    chunks or more the loop then awaits, leaving both flags set; a
    greeting of at most one chunk reaches the epilogue at once, which
    clears both (the greeting is the active generation). *)
Definition greeting_sync (buf : list Z) : bool := (2 <=? Sched.totalChunks buf)%nat.

(** Media before [start]: adopt the event's [streamSid], set
    [startReceived] and [connected], and call [session.onStreamSidReady()].
    [greet] is what that call does before the handler goes on:
    [Some buf] when it runs synchronously into
    [sendAudioViaWebSocket(session, buf, {label: "greeting", uninterruptible: true})]
    ([onStreamSidReady] with the socket open, then [sendInitialMessage]
    with the initial message not yet sent and the default greeting [buf]
    in the memory cache), [None] when it starts no send before an
    [await] (no [callSid], no callback, initial message already sent,
    socket not open, or greeting not cached).  The handler is taken as
    one step: the [calls] lookup it awaits when [callSid] is unset, and
    whatever runs during that wait, are outside the model. *)
Definition bind_from_media (greet : option (list Z)) (s : media_state) (m : media_msg)
  : media_state * list effect :=
  if negb (startReceived s) && js_truthy_str (msgStreamSid m) then
    let sid := match msgStreamSid m with Some x => x | None => EmptyString end in
    let '(gip, sending, eg) :=
      match greet with
      | Some buf => (greeting_sync buf, greeting_sync buf, [StartGreeting])
      | None => (greetingInProgress s, isSendingAudio s, [])
      end in
    (mkMedia gip sending true (Some sid) true
       (speechActive s) (segmentBuffers s) (segmentLastNonSilentIndex s)
       (speechWarmup s) (segmentStartMs s) (speechStartMs s) (lastSpeechMs s)
       (lastIncomingAudioTime s) (pendingProcessTimer s) (pendingUserSegments s),
     BindStreamFromMedia sid :: eg)
  else (s, []).

Definition with_warmup (s : media_state) (w : nat) : media_state :=
  mkMedia (greetingInProgress s) (isSendingAudio s) (startReceived s) (streamSid s)
    (connected s) (speechActive s) (segmentBuffers s) (segmentLastNonSilentIndex s)
    w (segmentStartMs s) (speechStartMs s) (lastSpeechMs s)
    (lastIncomingAudioTime s) (pendingProcessTimer s) (pendingUserSegments s).

(** Confirmed speech start: open a segment, barge in on audio being
    sent, cancel a pending merge timer. *)
Definition start_segment (s : media_state) (now : Z) : media_state * list effect :=
  (mkMedia (greetingInProgress s) (isSendingAudio s) (startReceived s) (streamSid s)
     (connected s) true [] (-1) (speechWarmup s) (Some now) (Some now)
     (lastSpeechMs s) (lastIncomingAudioTime s) false (pendingUserSegments s),
   [SpeechStart]
   ++ (if isSendingAudio s then [RequestStop] else [])
   ++ (if pendingProcessTimer s then [CancelPending] else [])).

(** [session._segmentBuffers.push(audioData)] and, on a speech frame, the
    last-speech bookkeeping. *)
Definition push_frame (s : media_state) (audio : list Z) (isSpeechFrame : bool) (now : Z)
  : media_state :=
  let bufs := segmentBuffers s ++ [audio] in
  if isSpeechFrame then
    mkMedia (greetingInProgress s) (isSendingAudio s) (startReceived s) (streamSid s)
      (connected s) (speechActive s) bufs (Z.of_nat (List.length bufs) - 1)
      (speechWarmup s) (segmentStartMs s) (speechStartMs s) (Some now)
      (Some now) (pendingProcessTimer s) (pendingUserSegments s)
  else
    mkMedia (greetingInProgress s) (isSendingAudio s) (startReceived s) (streamSid s)
      (connected s) (speechActive s) bufs (segmentLastNonSilentIndex s)
      (speechWarmup s) (segmentStartMs s) (speechStartMs s) (lastSpeechMs s)
      (lastIncomingAudioTime s) (pendingProcessTimer s) (pendingUserSegments s).

(** End of speech: trim to the last non-silent frame, reset the VAD
    state, drop a too-small segment, otherwise play the filler and queue
    the segment for merging ([queueOrMergeIncomingSegment] pushes it and
    re-arms the merge timer). *)
Definition end_of_speech (cfg : vad_cfg) (s : media_state) (now : Z)
  : media_state * list effect :=
  let keepCount := Z.to_nat (Z.max 0 (segmentLastNonSilentIndex s + 1)) in
  let kept := firstn keepCount (segmentBuffers s) in
  let combined := concat kept in
  let speechMs :=
    match speechStartMs s with
    | Some t => if t =? 0 then 0 else now - t
    | None => 0
    end in
  let log := EosConfirmed speechMs (List.length combined) (List.length kept) in
  let reset :=
    mkMedia (greetingInProgress s) (isSendingAudio s) (startReceived s) (streamSid s)
      (connected s) false [] (-1) 0 (segmentStartMs s) (speechStartMs s)
      (lastSpeechMs s) (lastIncomingAudioTime s) (pendingProcessTimer s)
      (pendingUserSegments s) in
  if (0 <? List.length combined)%nat then
    if (List.length kept <? MIN_SPEECH_FRAMES cfg)%nat
       || (List.length combined <? MIN_SPEECH_BYTES cfg)%nat
       || (speechMs <? MIN_SPEECH_MS cfg)
    then (reset, [log; SegmentDrop])
    else
      (mkMedia (greetingInProgress reset) (isSendingAudio reset) (startReceived reset)
         (streamSid reset) (connected reset) false [] (-1) 0 (segmentStartMs reset)
         (speechStartMs reset) (lastSpeechMs reset) (lastIncomingAudioTime reset)
         true (pendingUserSegments reset ++ [combined]),
       [log; PlayFiller; QueueSegment combined])
  else (reset, [log]).

(** VAD on one decoded frame. *)
Definition vad_frame (cfg : vad_cfg) (s : media_state) (audio : list Z) (now : Z)
  : media_state * list effect :=
  let threshold :=
    if isSendingAudio s then VAD_THRESHOLD_WHILE_PLAYING cfg else VAD_THRESHOLD cfg in
  let isSpeechFrame := level_exceeds threshold audio in
  let warm := if isSpeechFrame then S (speechWarmup s) else 0%nat in
  let warmupNeeded :=
    if isSendingAudio s then SPEECH_WARMUP_FRAMES_WHILE_PLAYING cfg
    else SPEECH_WARMUP_FRAMES cfg in
  let confirmed := Nat.leb warmupNeeded warm in
  let s0 := with_warmup s warm in
  if negb (speechActive s0) && negb confirmed then (s0, [])
  else
    let '(s1, e1) := if speechActive s0 then (s0, []) else start_segment s0 now in
    let s2 := push_frame s1 audio isSpeechFrame now in
    let lastSpeechAt :=
      js_or_time (lastIncomingAudioTime s2) (js_or_time (speechStartMs s2) now) in
    let silenceMs := now - lastSpeechAt in
    if speechActive s2 && (SILENCE_MS cfg <? silenceMs) && negb isSpeechFrame then
      let '(s3, e3) := end_of_speech cfg s2 now in (s3, e1 ++ e3)
    else (s2, e1).

(** [handleInboundMediaMessage(session, message)] at time [now], with
    [greet] the outcome of the greeting trigger (see [bind_from_media]). *)
Definition handleInboundMediaMessage (cfg : vad_cfg) (greet : option (list Z))
  (s : media_state) (m : media_msg) (now : Z) : media_state * list effect :=
  if track_ignored m then (s, [])
  else if greetingInProgress s then (s, [])
  else
    let '(s1, e1) := bind_from_media greet s m in
    match payload m with
    | None => (s1, e1)
    | Some audio => let '(s2, e2) := vad_frame cfg s1 audio now in (s2, e1 ++ e2)
    end.

End Media.

(* ------------------------------------------------------------------ *)
(** ** JS strings as UTF-16 code units *)

Module JsStr.

(** [String.prototype.trim] strips WhiteSpace and LineTerminator code
    units (ECMA-262): TAB, LF, VT, FF, CR, SP, NBSP, the Zs category,
    LS, PS and the BOM. *)
Definition is_js_space (c : Z) : bool :=
  (9 <=? c) && (c <=? 13) || (c =? 32) || (c =? 160) || (c =? 5760)
  || (8192 <=? c) && (c <=? 8202) || (c =? 8232) || (c =? 8233)
  || (c =? 8239) || (c =? 8287) || (c =? 12288) || (c =? 65279).

Fixpoint drop_space (l : list Z) : list Z :=
  match l with
  | c :: r => if is_js_space c then drop_space r else l
  | [] => []
  end.

Definition js_trim (l : list Z) : list Z := rev (drop_space (rev (drop_space l))).

(** An ASCII literal as code units. *)
Definition units (s : string) : list Z :=
  map (fun c => Z.of_nat (nat_of_ascii c)) (list_ascii_of_string s).

Fixpoint list_eqb (a b : list Z) : bool :=
  match a, b with
  | x :: a', y :: b' => (x =? y) && list_eqb a' b'
  | [], [] => true
  | _, _ => false
  end.

Fixpoint starts_with (p l : list Z) : bool :=
  match p, l with
  | [], _ => true
  | x :: p', y :: l' => (x =? y) && starts_with p' l'
  | _ :: _, [] => false
  end.

(** [String.prototype.includes] *)
Fixpoint includes (l p : list Z) : bool :=
  starts_with p l || match l with [] => false | _ :: l' => includes l' p end.

End JsStr.

(* ------------------------------------------------------------------ *)
(** ** The turn loop ([processIncomingAudio], server.js) *)

Module Turn.
Import JsStr.

(** Fixed replies of the loop, as UTF-16 code units. *)
Definition EMPTY_TRANSCRIPTION_REPLY : list Z :=
  [12377; 12415; 12414; 12379; 12435; 12289; 23569; 12375; 32862; 12365; 21462; 12428; 12414; 12379; 12435; 12391; 12375; 12383; 12290; 12418; 12358; 19968; 24230; 12362; 39000; 12356; 12391; 12365; 12414; 12377; 12363; 65311].
Definition FAREWELL_TEXT : list Z :=
  [25215; 30693; 12375; 12414; 12375; 12383; 12290; 22833; 31036; 12356; 12383; 12375; 12414; 12377; 12290].
Definition TAKE_MESSAGE_PROMPT : list Z :=
  [24656; 12428; 20837; 12426; 12414; 12377; 12364; 25285; 24403; 32773; 12408; 12362; 32331; 12366; 12391; 12365; 12414; 12379; 12435; 12290; 20253; 35328; 12392; 12375; 12390; 25215; 12426; 12414; 12377; 12398; 12391; 12289; 12372; 29992; 20214; 12392; 12289; 12362; 21517; 21069; 12539; 25240; 12426; 36820; 12375; 20808; 65288; 38651; 35441; 30058; 21495; 65289; 12434; 12362; 35441; 12375; 12367; 12384; 12373; 12356; 12290].
Definition CLOSING_REPLY : list Z :=
  [25215; 30693; 12375; 12414; 12375; 12383; 12290; 20182; 12395; 12372; 29992; 20214; 12399; 12354; 12426; 12414; 12377; 12363; 65311; 29305; 12395; 12394; 12369; 12428; 12400; 12289; 12371; 12398; 12414; 12414; 12362; 38651; 35441; 12434; 12362; 20999; 12426; 12367; 12384; 12373; 12356; 12290].

Definition NO_MORE_PHRASES : list (list Z) :=
  [[29305; 12395; 12394; 12356];
   [29305; 12395; 12354; 12426; 12414; 12379; 12435];
   [12394; 12356; 12391; 12377];
   [12354; 12426; 12414; 12379; 12435];
   [22823; 19976; 22827];
   [32080; 27083; 12391; 12377];
   [20197; 19978; 12391; 12377];
   [12381; 12428; 12384; 12369];
   [12394; 12356; 12391; 12377; 12397]].

(** [detectNoMoreRequests(text)] *)
Definition detectNoMoreRequests (text : list Z) : bool :=
  let t := js_trim text in
  match t with
  | [] => false
  | _ => existsb (includes t) NO_MORE_PHRASES
  end.

Inductive role := User | Assistant.

(** The part of the session and of [calls/{callSid}] the loop touches:
    the [conversations] array, the replies handed to
    [sendAudioResponseViaMediaStream] (which reads Firestore but never
    writes [conversations], and catches its own errors), and the
    [_closingAsked] / [_purposeCaptured] flags. *)
Record turn_state := mkTurn {
  conversations : list (role * list Z);
  said : list (list Z);
  closingAsked : bool;
  purposeCaptured : bool }.

Definition log_msg (r : role) (m : list Z) (st : turn_state) : turn_state :=
  mkTurn (conversations st ++ [(r, m)]) (said st) (closingAsked st) (purposeCaptured st).

Definition sendAudioResponse (text : list Z) (st : turn_state) : turn_state :=
  mkTurn (conversations st) (said st ++ [text]) (closingAsked st) (purposeCaptured st).

Section Loop.
(** The remote services.  [transcribe seg] is the Whisper request:
    [None] when it rejects (network error, unparsable body), else the
    response's [text || ""].  [classify closingAsked msg] is the action
    of [classifyUserTurnWithAI], which catches its own errors.
    [write log r m] tells whether [callRef.set] appending the message
    [m] of role [r] to the stored conversation [log] succeeds ([false]:
    it throws, and the entry is taken as not written).  [chat log] is
    [None] when [callRef.get] or [openai.chat.completions.create]
    throws, else the trimmed and length-capped reply to the stored
    conversation [log]. *)
Variable transcribe : list Z -> option (list Z).
Variable classify : bool -> list Z -> list Z.
Variable chat : list (role * list Z) -> option (list Z).
Variable write : list (role * list Z) -> role -> list Z -> bool.

(** [await callRef.set({..., conversations: arrayUnion({role, content})})]:
    [None] when it throws. *)
Definition store_msg (r : role) (m : list Z) (st : turn_state) : option turn_state :=
  if write (conversations st) r m then Some (log_msg r m st) else None.

(** Store the assistant reply, then speak it; [(st, false)] when the
    store throws. *)
Definition reply (text : list Z) (st : turn_state) : turn_state * bool :=
  match store_msg Assistant text st with
  | Some st' => (sendAudioResponse text st', true)
  | None => (st, false)
  end.

(** One iteration for a non-empty segment: the state after it and
    whether the [while] loop goes on ([false] when an exception leaves
    the loop, caught by the surrounding [try]). *)
Definition process_segment (seg : list Z) (st : turn_state) : turn_state * bool :=
  match transcribe seg with
  | None => (st, false)
  | Some text =>
      let userMessage := js_trim text in
      match userMessage with
      | [] => (sendAudioResponse EMPTY_TRANSCRIPTION_REPLY st, true)
      | _ =>
          match store_msg User userMessage st with
          | None => (st, false)
          | Some st1 =>
              let action := classify (closingAsked st1) userMessage in
              if list_eqb action (units "farewell") then reply FAREWELL_TEXT st1
              else if list_eqb action (units "take_message") then
                reply TAKE_MESSAGE_PROMPT st1
              else if list_eqb action (units "closing") then
                reply CLOSING_REPLY (mkTurn (conversations st1) (said st1) true true)
              else if closingAsked st1 && detectNoMoreRequests userMessage then
                reply FAREWELL_TEXT st1
              else
                match chat (conversations st1) with
                | Some aiResponse => reply aiResponse st1
                | None => (st1, false)
                end
          end
      end
  end.

(** [while (session._segmentQueue.length) { ... }]: returns the final
    state and the segments still queued when the loop was left. *)
Fixpoint drain (queue : list (list Z)) (st : turn_state) : turn_state * list (list Z) :=
  match queue with
  | [] => (st, [])
  | combinedAudio :: rest =>
      match combinedAudio with
      | [] => drain rest st
      | _ =>
          let '(st', ok) := process_segment combinedAudio st in
          if ok then drain rest st' else (st', rest)
      end
  end.

End Loop.
End Turn.

(* ------------------------------------------------------------------ *)
(** ** The intent classifier ([classifyUserTurnWithAI], server.js) *)

Module Classifier.
Import JsStr.

(** Values [JSON.parse] can produce. *)
#[warnings="-register-all"]
Inductive jvalue :=
| JNull
| JBool (b : bool)
| JNum (n : Z)
| JStr (s : list Z)
| JArr (items : list jvalue)
| JObj (fields : list (list Z * jvalue)).

(** Property read on a parsed object: a repeated key keeps its last value. *)
Fixpoint get_field (k : list Z) (fields : list (list Z * jvalue)) : option jvalue :=
  match fields with
  | [] => None
  | (k', v) :: r =>
      match get_field k r with
      | Some w => Some w
      | None => if list_eqb k k' then Some v else None
      end
  end.

(** [obj?.key] on a parsed value ([undefined] is [None]). *)
Definition get_prop (o : jvalue) (k : list Z) : option jvalue :=
  match o with JObj f => get_field k f | _ => None end.

Definition js_truthy (v : option jvalue) : bool :=
  match v with
  | None | Some JNull => false
  | Some (JBool b) => b
  | Some (JNum n) => negb (n =? 0)
  | Some (JStr s) => match s with [] => false | _ => true end
  | Some (JArr _) | Some (JObj _) => true
  end.

(** Outcome of [openai.chat.completions.create]: it throws, or yields
    [choices?.[0]?.message?.content] ([None] when nullish). *)
Inductive rpc_result :=
| RpcThrows
| RpcOk (content : option (list Z)).

Definition ACTIONS : list (list Z) :=
  [units "normal"; units "take_message"; units "closing"; units "farewell"].

Definition is_action (a : list Z) : bool := existsb (list_eqb a) ACTIONS.

Definition classifier_error : list Z * list Z := (units "normal", units "classifier_error").
Definition invalid_action : list Z * list Z := (units "normal", units "invalid_action").

Section Classify.
(** [JSON.parse] ([None] when it throws) and [String(v)] ([None] when
    the conversion throws, e.g. an object whose [toString] is not a
    function). *)
Variable json_parse : list Z -> option jvalue.
Variable js_String : jvalue -> option (list Z).

Definition classifyUserTurnWithAI (resp : rpc_result) : list Z * list Z :=
  match resp with
  | RpcThrows => classifier_error
  | RpcOk content =>
      let txt := js_trim (match content with Some c => c | None => [] end) in
      match json_parse txt with
      | None => classifier_error
      | Some obj =>
          match get_prop obj (units "action") with
          | Some (JStr action) =>
              if is_action action then
                let reason := get_prop obj (units "reason") in
                if js_truthy reason then
                  match reason with
                  | Some v =>
                      match js_String v with
                      | Some r => (action, r)
                      | None => classifier_error
                      end
                  | None => (action, [])
                  end
                else (action, [])
              else invalid_action
          | _ => invalid_action
          end
      end
  end.

End Classify.
End Classifier.

(* ------------------------------------------------------------------ *)
(** ** The HTTP surface (server.js, after [sendAudioResponseViaMediaStream]) *)

Module Http.








End Http.

(* ------------------------------------------------------------------ *)
(** ** Segment merging (server.js, [queueOrMergeIncomingSegment]) *)

(** The merge window of a session: [_pendingUserSegments], whether
    [_pendingProcessTimer] is armed, and the merged buffers the timer
    callbacks have handed to [processIncomingAudio], in order. *)
Module Merge.

Record merge_state := mkMerge {
  pendingUserSegments : list (list Z);
  timerArmed : bool;
  processed : list (list Z) }.

Definition init : merge_state := mkMerge [] false [].

(** [queueOrMergeIncomingSegment(session, combinedAudio)]: an empty
    buffer is ignored; otherwise it is appended and the timer is
    (re)armed, replacing any armed one. *)
Definition queueOrMergeIncomingSegment (combinedAudio : list Z) (st : merge_state)
  : merge_state :=
  match combinedAudio with
  | [] => st
  | _ => mkMerge (pendingUserSegments st ++ [combinedAudio]) true (processed st)
  end.

(** The timer callback: take all pending segments, disarm, and process
    [segs.length === 1 ? segs[0] : Buffer.concat(segs)].  A cleared
    timer never fires. *)
Definition timer_fires (st : merge_state) : merge_state :=
  if timerArmed st then
    let segs := pendingUserSegments st in
    let merged := match segs with [x] => x | _ => concat segs end in
    mkMerge [] false (processed st ++ [merged])
  else st.

(** A confirmed speech start in [handleInboundMediaMessage] clears the
    timer and keeps the pending segments for the next end of speech. *)
Definition cancel_pending (st : merge_state) : merge_state :=
  mkMerge (pendingUserSegments st) false (processed st).

Inductive mev :=
| MQueue (seg : list Z)
| MFire
| MCancel.

Definition mstep (st : merge_state) (e : mev) : merge_state :=
  match e with
  | MQueue seg => queueOrMergeIncomingSegment seg st
  | MFire => timer_fires st
  | MCancel => cancel_pending st
  end.

Definition run_merge (evs : list mev) : merge_state := fold_left mstep evs init.

(** The audio handed to [queueOrMergeIncomingSegment], in order. *)
Fixpoint queued (evs : list mev) : list (list Z) :=
  match evs with
  | [] => []
  | MQueue seg :: r => seg :: queued r
  | _ :: r => queued r
  end.

End Merge.

(** *** Facts about the scheduler model *)

Module SchedFacts.
Import Sched.

Lemma opt_eqb_spec (a b : option nat) : opt_eqb a b = true <-> a = b.
Proof.
  destruct a as [x|], b as [y|]; simpl; split; intro H; try congruence.
  - apply Nat.eqb_eq in H; congruence.
  - apply Nat.eqb_eq; congruence.
Qed.

Lemma opt_eqb_false (a b : option nat) : opt_eqb a b = false <-> a <> b.
Proof.
  rewrite <- opt_eqb_spec. destruct (opt_eqb a b); split; congruence.
Qed.

Lemma firstn_seq (k n st : nat) : firstn k (seq st n) = seq st (Nat.min k n).
Proof.
  revert n st; induction k as [|k IH]; intros [|n] st; simpl; auto.
  now rewrite IH.
Qed.

Lemma expected_prefix (p : proc) (k : nat) :
  (k <= totalChunks (pbuf p))%nat ->
  firstn k (expected p) =
  map (fun i => WMedia (pgen p) (chunk (pbuf p) i)) (seq 0 k).
Proof.
  intro Hk. unfold expected.
  rewrite firstn_app, length_map, length_seq.
  replace (k - totalChunks (pbuf p))%nat with 0%nat by lia.
  rewrite app_nil_r, firstn_map, firstn_seq.
  now replace (Nat.min k (totalChunks (pbuf p))) with k by lia.
Qed.

Lemma expected_full (p : proc) :
  firstn (S (totalChunks (pbuf p))) (expected p) = expected p.
Proof.
  apply firstn_all2. unfold expected.
  rewrite length_app, length_map, length_seq. simpl. lia.
Qed.

Lemma filter_gen_app (g : nat) (l : list wire) (w : wire) :
  filter_gen g (l ++ [w]) =
  filter_gen g l ++ (if Nat.eqb (wgen w) g then [w] else []).
Proof.
  unfold filter_gen. rewrite filter_app. simpl.
  destruct (Nat.eqb (wgen w) g); reflexivity.
Qed.

Lemma filter_gen_fresh (g : nat) (l : list wire) :
  (forall w, In w l -> wgen w <> g) -> filter_gen g l = [].
Proof.
  intro H. induction l as [|w l IH]; simpl; auto.
  destruct (Nat.eqb (wgen w) g) eqn:E.
  - apply Nat.eqb_eq in E. exfalso. apply (H w); auto. now left.
  - apply IH. intros w' Hw'. apply H. now right.
Qed.

Lemma map_pgen_set_status (g : nat) (st : pstat) (ps : list proc) :
  map pgen (set_status g st ps) = map pgen ps.
Proof.
  unfold set_status. rewrite map_map. apply map_ext. intro p.
  destruct (Nat.eqb (pgen p) g); reflexivity.
Qed.

Lemma in_set_status (g : nat) (st : pstat) (ps : list proc) (q : proc) :
  In q (set_status g st ps) ->
  (exists q0, In q0 ps /\ pgen q0 = g /\ q = mkProc (pgen q0) (popts q0) (pbuf q0) st)
  \/ (In q ps /\ pgen q <> g).
Proof.
  unfold set_status. rewrite in_map_iff. intros [q0 [Heq Hin]].
  destruct (Nat.eqb (pgen q0) g) eqn:E.
  - left. exists q0. apply Nat.eqb_eq in E. auto.
  - right. subst q. apply Nat.eqb_neq in E. auto.
Qed.

Lemma nodup_same_gen (ps : list proc) (a b : proc) :
  NoDup (map pgen ps) -> In a ps -> In b ps -> pgen a = pgen b -> a = b.
Proof.
  induction ps as [|c ps IH]; simpl; [tauto|].
  intros Hnd Ha Hb Hab. inversion Hnd as [|x l Hnotin Hnd']; subst.
  destruct Ha as [<-|Ha], Hb as [<-|Hb]; auto.
  - exfalso. apply Hnotin. rewrite Hab. now apply in_map.
  - exfalso. apply Hnotin. rewrite <- Hab. now apply in_map.
Qed.

Lemma find_proc_some (g : nat) (s : sched) (p : proc) :
  find_proc g s = Some p -> In p (procs s) /\ pgen p = g.
Proof.
  unfold find_proc. intro H. split.
  - eapply find_some; eauto.
  - apply find_some in H. destruct H as [_ H]. now apply Nat.eqb_eq.
Qed.

End SchedFacts.

(** *** Invariant of the reachable scheduler states *)

Module SchedInv.
Import Sched SchedFacts.

(** [inv_ex ex s]: the invariant, where the output accounting [iv_sent] may
    be off for the send with tag [ex] (a step of that send is half done).
    Tags start at 1, so [inv_ex 0] is the full invariant. *)
Record inv_ex (ex : nat) (s : sched) : Prop := {
  iv_gen : forall p, In p (procs s) -> (1 <= pgen p <= audioGenCounter s)%nat;
  iv_nodup : NoDup (map pgen (procs s));
  iv_out : forall w, In w (out s) -> (1 <= wgen w <= audioGenCounter s)%nat;
  iv_sent : forall p, In p (procs s) -> pgen p <> ex ->
    filter_gen (pgen p) (out s) = firstn (progress p) (expected p);
  iv_stop : forall x, stopAudioGen s = Some x ->
    activeAudioGen s = Some x /\ uninterruptibleAudioGen s <> Some x;
  iv_unint_pos : forall u, uninterruptibleAudioGen s = Some u -> (1 <= u)%nat;
  iv_unint : forall p i, In p (procs s) -> uninterruptible (popts p) = true ->
    pstatus p = Running i -> activeAudioGen s = Some (pgen p) ->
    uninterruptibleAudioGen s = Some (pgen p);
  iv_never_cut : forall p k, In p (procs s) -> uninterruptible (popts p) = true ->
    pstatus p <> Finished k false;
  iv_sending : isSendingAudio s = true -> activeAudioGen s <> None;
  iv_bound : forall p i, In p (procs s) -> pstatus p = Running i ->
    (i <= totalChunks (pbuf p))%nat }.

Definition inv : sched -> Prop := inv_ex 0.

Lemma inv_init : inv init.
Proof. constructor; simpl; intros; try tauto; try discriminate. constructor. Qed.

Lemma inv_weaken (g : nat) (s : sched) : inv s -> inv_ex g s.
Proof.
  intros [H1 H2 H3 H4 H5 H6 H7 H8 H9 H10]; constructor; auto.
  intros p Hp _. apply H4; auto. specialize (H1 p Hp). lia.
Qed.

Lemma start_inv (buf : list Z) (o : send_opts) (s : sched) :
  inv s -> inv (start_send buf o s).
Proof.
  intros [H1 H2 H3 H4 H5 H6 H7 H8 H9 H10].
  unfold start_send; constructor; simpl.
  - intros p Hp. apply in_app_or in Hp as [Hp|[<-|[]]]; simpl; [|lia].
    specialize (H1 p Hp); lia.
  - rewrite map_app. apply NoDup_app; auto.
    + constructor; [intros []|constructor].
    + intros a Ha [<-|[]]. apply in_map_iff in Ha as [q [Hq Hin]].
      specialize (H1 q Hin). simpl in *. lia.
  - intros w Hw. specialize (H3 w Hw). lia.
  - intros p Hp Hne. apply in_app_or in Hp as [Hp|[<-|[]]].
    + now apply H4.
    + simpl. apply filter_gen_fresh. intros w Hw. specialize (H3 w Hw). simpl. lia.
  - discriminate.
  - intros u Hu. destruct (uninterruptible o); [injection Hu; lia|eauto].
  - intros p i Hp Hu Hr Ha. injection Ha as Ha.
    apply in_app_or in Hp as [Hp|[<-|[]]].
    + specialize (H1 p Hp). lia.
    + simpl in *. now rewrite Hu.
  - intros p k Hp Hu. apply in_app_or in Hp as [Hp|[<-|[]]]; [now apply H8|].
    simpl. discriminate.
  - discriminate.
  - intros p i Hp Hr. apply in_app_or in Hp as [Hp|[<-|[]]]; [eauto|].
    simpl in Hr. injection Hr as <-. lia.
Qed.

Lemma stop_inv (s : sched) : inv s -> inv (requestStopAudio s).
Proof.
  intros Hi. unfold requestStopAudio.
  destruct (isSendingAudio s) eqn:Hsend; cbn [negb]; [|exact Hi].
  destruct (match uninterruptibleAudioGen s with
            | Some u => negb (Nat.eqb u 0) && opt_eqb (Some u) (activeAudioGen s)
            | None => false end) eqn:Hig; [exact Hi|].
  destruct Hi as [H1 H2 H3 H4 H5 H6 H7 H8 H9 H10]; constructor; simpl; auto.
  intros x Hx. split; [exact Hx|]. intro Hu.
  rewrite Hu in Hig. rewrite Hx in Hig. specialize (H6 x Hu).
  destruct x as [|x]; [lia|]. simpl in Hig. rewrite Nat.eqb_refl in Hig.
  discriminate.
Qed.

Lemma finish_fields (p : proc) (sent : nat) (intr : bool) (s : sched) :
  let s' := finish p sent intr s in
  audioGenCounter s' = audioGenCounter s /\
  activeAudioGen s' = activeAudioGen s /\
  procs s' = set_status (pgen p) (Finished sent (negb intr)) (procs s) /\
  out s' = (if intr then out s else out s ++ [WMark (pgen p)]) /\
  (forall x, stopAudioGen s' = Some x -> stopAudioGen s = Some x) /\
  (forall x, uninterruptibleAudioGen s' = Some x -> uninterruptibleAudioGen s = Some x) /\
  (activeAudioGen s <> Some (pgen p) ->
   uninterruptibleAudioGen s' = uninterruptibleAudioGen s) /\
  (isSendingAudio s' = true -> isSendingAudio s = true).
Proof.
  unfold finish.
  destruct (opt_eqb (activeAudioGen s) (Some (pgen p))) eqn:Hm;
    [apply opt_eqb_spec in Hm|apply opt_eqb_false in Hm];
    destruct (is_greeting (popts p)), intr; cbn;
    repeat split; intros; try congruence; try assumption;
    repeat match goal with
    | H : context [if opt_eqb ?a ?b then _ else _] |- _ => destruct (opt_eqb a b)
    end; congruence.
Qed.

Lemma finish_inv (s : sched) (p : proc) (sent : nat) (intr : bool) :
  inv_ex (pgen p) s -> In p (procs s) ->
  filter_gen (pgen p) (out s) = firstn sent (expected p) ->
  (sent <= totalChunks (pbuf p))%nat ->
  (intr = false -> sent = totalChunks (pbuf p)) ->
  (intr = true -> uninterruptible (popts p) = false) ->
  inv (finish p sent intr s).
Proof.
  intros [H1 H2 H3 H4 H5 H6 H7 H8 H9 H10] Hp Hf Hle Hdone Hcut.
  destruct (finish_fields p sent intr s)
    as (Ec & Ea & Ep & Eo & Es & Eu & Eu' & Esend).
  set (s' := finish p sent intr s) in *.
  assert (Hg := H1 p Hp).
  constructor; rewrite ?Ec, ?Ea, ?Ep, ?Eo.
  - intros q Hq. apply in_set_status in Hq as [(q0 & Hq0 & Hg0 & ->)|[Hq _]];
      [simpl; auto|auto].
  - now rewrite map_pgen_set_status.
  - intros w Hw. destruct intr; [auto|].
    apply in_app_or in Hw as [Hw|[<-|[]]]; simpl; auto.
  - intros q Hq _. apply in_set_status in Hq as [(q0 & Hq0 & Hg0 & ->)|[Hq Hne]].
    + assert (q0 = p) by (apply (nodup_same_gen (procs s)); auto; congruence).
      subst q0. destruct intr.
      * exact Hf.
      * change (filter_gen (pgen p) (out s ++ [WMark (pgen p)])
                = firstn (S (totalChunks (pbuf p))) (expected p)).
        rewrite filter_gen_app, Hf, Nat.eqb_refl, (Hdone eq_refl).
        rewrite expected_full, (expected_prefix p _ (le_n _)).
        reflexivity.
    + rewrite <- H4 by (auto; lia). destruct intr; [reflexivity|].
      rewrite filter_gen_app. simpl.
      destruct (Nat.eqb (pgen p) (pgen q)) eqn:E;
        [apply Nat.eqb_eq in E; congruence|apply app_nil_r].
  - intros x Hx. apply Es in Hx. destruct (H5 x Hx) as [Ha Hu].
    split; [exact Ha|]. intro Hu2. apply Eu in Hu2. contradiction.
  - intros u Hu. apply Eu in Hu. eauto.
  - intros q i Hq Hun Hr Ha.
    apply in_set_status in Hq as [(q0 & Hq0 & Hg0 & ->)|[Hq Hne]];
      [simpl in Hr; discriminate|].
    rewrite Eu' by congruence. eauto.
  - intros q k Hq Hun.
    apply in_set_status in Hq as [(q0 & Hq0 & Hg0 & ->)|[Hq Hne]]; [|eauto].
    assert (q0 = p) by (apply (nodup_same_gen (procs s)); auto; congruence).
    subst q0. simpl in *. destruct intr; simpl.
    + rewrite (Hcut eq_refl) in Hun. discriminate.
    + congruence.
  - intros Hs. auto.
  - intros q i Hq Hr.
    apply in_set_status in Hq as [(q0 & Hq0 & Hg0 & ->)|[Hq Hne]];
      [simpl in Hr; discriminate|eauto].
Qed.

Lemma expected_snoc (p : proc) (i : nat) :
  (i < totalChunks (pbuf p))%nat ->
  firstn (S i) (expected p) =
  firstn i (expected p) ++ [WMedia (pgen p) (chunk (pbuf p) i)].
Proof.
  intro Hi. rewrite !expected_prefix by lia.
  rewrite seq_S, map_app. reflexivity.
Qed.

Lemma emit_media_inv (s : sched) (p : proc) (i : nat) :
  inv s -> In p (procs s) -> pstatus p = Running i ->
  (i < totalChunks (pbuf p))%nat ->
  let s1 := emit s (WMedia (pgen p) (chunk (pbuf p) i)) in
  inv_ex (pgen p) s1 /\
  filter_gen (pgen p) (out s1) = firstn (S i) (expected p).
Proof.
  intros Hi Hp Hr Hlt. pose proof Hi as [H1 H2 H3 H4 H5 H6 H7 H8 H9 H10].
  assert (Hg := H1 p Hp).
  split.
  - constructor; unfold emit; simpl; auto.
    + intros w Hw. apply in_app_or in Hw as [Hw|[<-|[]]]; simpl; auto.
    + intros q Hq Hne. rewrite filter_gen_app. simpl.
      destruct (Nat.eqb (pgen p) (pgen q)) eqn:E;
        [apply Nat.eqb_eq in E; congruence|].
      rewrite app_nil_r. apply H4; auto. specialize (H1 q Hq). lia.
  - unfold emit; cbn [out]. rewrite filter_gen_app, H4 by (auto; lia).
    rewrite expected_snoc by lia. unfold progress. rewrite Hr.
    cbn [wgen]. now rewrite Nat.eqb_refl.
Qed.

Lemma running_inv (s : sched) (p : proc) (i : nat) :
  inv_ex (pgen p) s -> In p (procs s) -> pstatus p = Running i ->
  filter_gen (pgen p) (out s) = firstn (S i) (expected p) ->
  (S i <= totalChunks (pbuf p))%nat ->
  inv (with_procs s (set_status (pgen p) (Running (S i)) (procs s))).
Proof.
  intros [H1 H2 H3 H4 H5 H6 H7 H8 H9 H10] Hp Hr Hf Hle.
  unfold with_procs; constructor; simpl; auto.
  - intros q Hq. apply in_set_status in Hq as [(q0 & Hq0 & Hg0 & ->)|[Hq _]];
      [simpl; auto|auto].
  - now rewrite map_pgen_set_status.
  - intros q Hq _. apply in_set_status in Hq as [(q0 & Hq0 & Hg0 & ->)|[Hq Hne]].
    + assert (q0 = p) by (apply (nodup_same_gen (procs s)); auto; congruence).
      subst q0. exact Hf.
    + apply H4; auto.
  - intros q j Hq Hun Hrq Ha.
    apply in_set_status in Hq as [(q0 & Hq0 & Hg0 & ->)|[Hq Hne]]; [|eauto].
    assert (q0 = p) by (apply (nodup_same_gen (procs s)); auto; congruence).
    subst q0. simpl in *. eauto.
  - intros q k Hq Hun.
    apply in_set_status in Hq as [(q0 & Hq0 & Hg0 & ->)|[Hq Hne]]; [|eauto].
    simpl. discriminate.
  - intros q j Hq Hrq.
    apply in_set_status in Hq as [(q0 & Hq0 & Hg0 & ->)|[Hq Hne]]; [|eauto].
    assert (q0 = p) by (apply (nodup_same_gen (procs s)); auto; congruence).
    subst q0. simpl in Hrq. injection Hrq as <-. exact Hle.
Qed.

(** A running uninterruptible send never sees its own tag in
    [_stopAudioGen]. *)
Lemma stop_not_uninterruptible (s : sched) (p : proc) (i : nat) :
  inv s -> In p (procs s) -> pstatus p = Running i ->
  uninterruptible (popts p) = true -> stopAudioGen s <> Some (pgen p).
Proof.
  intros Hi Hp Hr Hun Hs. destruct Hi as [H1 H2 H3 H4 H5 H6 H7 H8 H9 H10].
  destruct (H5 _ Hs) as [Ha Hu]. apply Hu. eauto.
Qed.

Lemma chunk_inv (g : nat) (s : sched) : inv s -> inv (chunk_step g s).
Proof.
  intro Hi. unfold chunk_step.
  destruct (find_proc g s) as [p|] eqn:Hf; [|exact Hi].
  apply find_proc_some in Hf as [Hp <-].
  destruct (pstatus p) as [i|k c] eqn:Hr; [|exact Hi].
  assert (Hb := iv_bound _ _ Hi p i Hp Hr).
  assert (Hsent := iv_sent _ _ Hi p Hp).
  unfold progress in Hsent. rewrite Hr in Hsent.
  assert (Hsent' : filter_gen (pgen p) (out s) = firstn i (expected p))
    by (apply Hsent; pose proof (iv_gen _ _ Hi p Hp); lia).
  destruct (Nat.ltb i (totalChunks (pbuf p))) eqn:Hlt.
  - apply Nat.ltb_lt in Hlt.
    destruct (opt_eqb (stopAudioGen s) (Some (pgen p))) eqn:Hs.
    + apply opt_eqb_spec in Hs.
      apply finish_inv; auto using inv_weaken; try lia; try discriminate.
      intros _. destruct (uninterruptible (popts p)) eqn:Hun; auto.
      exfalso. eapply stop_not_uninterruptible; eauto.
    + destruct (emit_media_inv s p i Hi Hp Hr Hlt) as [Hi1 Hf1].
      destruct (Nat.ltb (S i) (totalChunks (pbuf p))) eqn:Hlt2.
      * apply Nat.ltb_lt in Hlt2. eapply running_inv; eauto; lia.
      * apply Nat.ltb_ge in Hlt2.
        apply finish_inv; auto; try lia; try discriminate.
  - apply Nat.ltb_ge in Hlt.
    apply finish_inv; auto using inv_weaken; try lia; discriminate.
Qed.

Lemma step_inv (s : sched) (e : ev) : inv s -> inv (step s e).
Proof.
  destruct e; simpl; auto using start_inv, stop_inv, chunk_inv.
Qed.

Lemma run_inv (evs : list ev) : inv (run evs).
Proof.
  unfold run. generalize inv_init. generalize init.
  induction evs as [|e evs IH]; simpl; auto using step_inv.
Qed.

Lemma find_in_nodup (ps : list proc) (p : proc) :
  NoDup (map pgen ps) -> In p ps ->
  find (fun q => Nat.eqb (pgen q) (pgen p)) ps = Some p.
Proof.
  intros Hnd Hp. induction ps as [|q ps IH]; [destruct Hp|].
  simpl. inversion Hnd as [|x l Hnotin Hnd']; subst.
  destruct (Nat.eqb (pgen q) (pgen p)) eqn:E.
  - apply Nat.eqb_eq in E. destruct Hp as [->|Hp]; auto.
    exfalso. apply Hnotin. rewrite E. now apply in_map.
  - destruct Hp as [->|Hp]; [rewrite Nat.eqb_refl in E; discriminate|auto].
Qed.

Lemma find_set_status (ps : list proc) (p : proc) (st : pstat) :
  NoDup (map pgen ps) -> In p ps ->
  find (fun q => Nat.eqb (pgen q) (pgen p)) (set_status (pgen p) st ps)
  = Some (mkProc (pgen p) (popts p) (pbuf p) st).
Proof.
  intros Hnd Hp. unfold set_status.
  induction ps as [|q ps IH]; [destruct Hp|].
  simpl. inversion Hnd as [|x l Hnotin Hnd']; subst.
  destruct (Nat.eqb (pgen q) (pgen p)) eqn:E; simpl; rewrite E.
  - apply Nat.eqb_eq in E.
    destruct Hp as [->|Hp]; auto.
    exfalso. apply Hnotin. rewrite E. now apply in_map.
  - destruct Hp as [->|Hp]; [rewrite Nat.eqb_refl in E; discriminate|auto].
Qed.

(** One step of a running uninterruptible send always advances it. *)
Lemma chunk_step_advances (s : sched) (p : proc) (i : nat) :
  inv s -> In p (procs s) -> pstatus p = Running i ->
  uninterruptible (popts p) = true ->
  exists p', find_proc (pgen p) (chunk_step (pgen p) s) = Some p' /\
    (pstatus p' = Running (S i) \/ exists k, pstatus p' = Finished k true).
Proof.
  intros Hi Hp Hr Hun.
  pose proof (iv_nodup _ _ Hi) as Hnd.
  unfold chunk_step.
  assert (Hf : find_proc (pgen p) s = Some p) by (now apply find_in_nodup).
  rewrite Hf, Hr.
  destruct (Nat.ltb i (totalChunks (pbuf p))) eqn:Hlt.
  - destruct (opt_eqb (stopAudioGen s) (Some (pgen p))) eqn:Hs.
    + apply opt_eqb_spec in Hs. exfalso.
      eapply stop_not_uninterruptible; eauto.
    + destruct (Nat.ltb (S i) (totalChunks (pbuf p))).
      * eexists. split.
        -- unfold find_proc. cbn [procs with_procs emit].
           apply find_set_status; auto.
        -- left. reflexivity.
      * eexists. split.
        -- unfold find_proc. rewrite (proj1 (proj2 (proj2 (finish_fields _ _ _ _)))).
           apply find_set_status; auto.
        -- right. eexists. reflexivity.
  - eexists. split.
    + unfold find_proc. rewrite (proj1 (proj2 (proj2 (finish_fields _ _ _ _)))).
      apply find_set_status; auto.
    + right. eexists. reflexivity.
Qed.

End SchedInv.

(** *** Where a stop signal comes from *)

Module SchedTrace.
Import Sched SchedFacts SchedInv.

(** No [sendAudioViaWebSocket] prologue in a stretch of events. *)
Definition no_start (l : list ev) : Prop :=
  Forall (fun e => match e with EStart _ _ => False | _ => True end) l.

Lemma run_snoc (evs : list ev) (e : ev) : run (evs ++ [e]) = step (run evs) e.
Proof. unfold run. now rewrite fold_left_app. Qed.

Lemma stop_after_chunk (g : nat) (s : sched) (x : nat) :
  stopAudioGen (chunk_step g s) = Some x -> stopAudioGen s = Some x.
Proof.
  unfold chunk_step.
  destruct (find_proc g s) as [p|]; auto.
  destruct (pstatus p) as [i|]; auto.
  destruct (Nat.ltb i (totalChunks (pbuf p))).
  - destruct (opt_eqb (stopAudioGen s) (Some g)).
    + apply (finish_fields p i true s).
    + destruct (Nat.ltb (S i) (totalChunks (pbuf p))); [now cbn|].
      intro H. apply (finish_fields p (S i) false _) in H. exact H.
  - apply (finish_fields p i false s).
Qed.

Lemma procs_requestStopAudio (s : sched) : procs (requestStopAudio s) = procs s.
Proof.
  unfold requestStopAudio.
  destruct (negb (isSendingAudio s)); auto.
  destruct (match uninterruptibleAudioGen s with
            | Some u => negb (Nat.eqb u 0) && opt_eqb (Some u) (activeAudioGen s)
            | None => false end); reflexivity.
Qed.

Lemma chunk_step_cut (g : nat) (s : sched) (q : proc) (k : nat) :
  In q (procs (chunk_step g s)) -> pstatus q = Finished k false ->
  In q (procs s) \/ (pgen q = g /\ stopAudioGen s = Some g).
Proof.
  unfold chunk_step.
  destruct (find_proc g s) as [p|] eqn:Hf; auto.
  apply find_proc_some in Hf as [Hp Hg].
  destruct (pstatus p) as [i|] eqn:Hr; auto.
  destruct (Nat.ltb i (totalChunks (pbuf p))).
  - destruct (opt_eqb (stopAudioGen s) (Some g)) eqn:Hs.
    + rewrite (proj1 (proj2 (proj2 (finish_fields _ _ _ _)))).
      intros Hq Hst. apply in_set_status in Hq as [(q0 & _ & Hg0 & ->)|[Hq _]]; auto.
      right. apply opt_eqb_spec in Hs. simpl. split; congruence.
    + destruct (Nat.ltb (S i) (totalChunks (pbuf p))).
      * cbn [procs with_procs emit].
        intros Hq Hst. apply in_set_status in Hq as [(q0 & _ & Hg0 & ->)|[Hq _]]; auto.
        discriminate.
      * rewrite (proj1 (proj2 (proj2 (finish_fields _ _ _ _)))).
        intros Hq Hst. apply in_set_status in Hq as [(q0 & _ & Hg0 & ->)|[Hq _]]; auto.
        discriminate.
  - rewrite (proj1 (proj2 (proj2 (finish_fields _ _ _ _)))).
    intros Hq Hst. apply in_set_status in Hq as [(q0 & _ & Hg0 & ->)|[Hq _]]; auto.
    discriminate.
Qed.

(** A pending [_stopAudioGen = x] was written by a [requestStopAudio]
    issued while [x] was the active generation, with no new send started
    since. *)
Lemma stop_origin (evs : list ev) (x : nat) :
  stopAudioGen (run evs) = Some x ->
  exists pre mid, evs = pre ++ EStop :: mid /\
    activeAudioGen (run pre) = Some x /\ isSendingAudio (run pre) = true /\
    no_start mid.
Proof.
  induction evs as [|e evs IH] using rev_ind; [discriminate|].
  rewrite run_snoc. intro Hx.
  assert (Hext : forall e', match e' with EStart _ _ => False | _ => True end ->
            stopAudioGen (run evs) = Some x ->
            exists pre mid, evs ++ [e'] = pre ++ EStop :: mid /\
              activeAudioGen (run pre) = Some x /\
              isSendingAudio (run pre) = true /\ no_start mid).
  { intros e' He' H. destruct (IH H) as (pre & mid & -> & Ha & Hs & Hn).
    exists pre, (mid ++ [e']). rewrite <- app_assoc. simpl.
    repeat split; auto. apply Forall_app. split; auto. }
  destruct e as [buf o|g|]; simpl in Hx.
  - discriminate.
  - apply Hext; auto. eapply stop_after_chunk; eauto.
  - unfold requestStopAudio in Hx.
    destruct (isSendingAudio (run evs)) eqn:Hs; cbn [negb] in Hx; [|now apply Hext].
    destruct (match uninterruptibleAudioGen (run evs) with
              | Some u => negb (Nat.eqb u 0) && opt_eqb (Some u) (activeAudioGen (run evs))
              | None => false end); [now apply Hext|].
    exists evs, []. repeat split; auto. constructor.
Qed.

(** Every interrupted send [q] was cut by its own loop step [EChunk (pgen q)]
    after a [requestStopAudio] issued while [q] was the active generation,
    with no other send started in between. *)
Lemma cut_origin (evs : list ev) (q : proc) (k : nat) :
  In q (procs (run evs)) -> pstatus q = Finished k false ->
  exists pre mid post,
    evs = pre ++ EStop :: mid ++ EChunk (pgen q) :: post /\
    activeAudioGen (run pre) = Some (pgen q) /\
    isSendingAudio (run pre) = true /\ no_start mid.
Proof.
  induction evs as [|e evs IH] using rev_ind; [intros []|].
  rewrite run_snoc. intros Hq Hst.
  assert (Hext : forall e', In q (procs (run evs)) ->
            exists pre mid post,
              evs ++ [e'] = pre ++ EStop :: mid ++ EChunk (pgen q) :: post /\
              activeAudioGen (run pre) = Some (pgen q) /\
              isSendingAudio (run pre) = true /\ no_start mid).
  { intros e' H. destruct (IH H Hst) as (pre & mid & post & -> & Ha & Hs & Hn).
    exists pre, mid, (post ++ [e']). repeat split; auto.
    rewrite <- !app_assoc. simpl. now rewrite <- !app_assoc. }
  destruct e as [buf o|g|]; simpl in Hq.
  - unfold start_send in Hq. simpl in Hq.
    apply in_app_or in Hq as [Hq|[<-|[]]]; [now apply Hext|discriminate].
  - destruct (chunk_step_cut g (run evs) q k Hq Hst) as [Hold|[Hg Hs]];
      [now apply Hext|].
    destruct (stop_origin evs g Hs) as (pre & mid & -> & Ha & Hsend & Hn).
    exists pre, mid, []. subst g. repeat split; auto.
    rewrite <- app_assoc. reflexivity.
  - rewrite procs_requestStopAudio in Hq. now apply Hext.
Qed.

End SchedTrace.

(* ------------------------------------------------------------------ *)
(** *** The sending and greeting flags, and interrupted sends *)

Module SchedFlags.
Import Sched SchedFacts SchedInv SchedTrace.

(** [isSendingAudio] tracks the loop of the active generation,
    [greetingInProgress] a running greeting, and an interrupted send
    stopped before its last chunk. *)
Record flags_inv (s : sched) : Prop := {
  fi_sending : isSendingAudio s = true <->
    exists p i, In p (procs s) /\ activeAudioGen s = Some (pgen p) /\ pstatus p = Running i;
  fi_greeting : greetingInProgress s = true ->
    exists p i, In p (procs s) /\ is_greeting (popts p) = true /\ pstatus p = Running i;
  fi_cut : forall p k, In p (procs s) -> pstatus p = Finished k false ->
    (k < totalChunks (pbuf p))%nat }.

Lemma flags_init : flags_inv init.
Proof.
  constructor; simpl.
  - split; [discriminate | intros (p & i & [] & _)].
  - discriminate.
  - intros p k [].
Qed.

Lemma in_set_status_other (g : nat) (st : pstat) (ps : list proc) (q : proc) :
  In q ps -> pgen q <> g -> In q (set_status g st ps).
Proof.
  intros Hq Hg. unfold set_status. apply in_map_iff. exists q. split; auto.
  destruct (Nat.eqb_spec (pgen q) g); [contradiction | reflexivity].
Qed.

Lemma in_set_status_same (g : nat) (st : pstat) (ps : list proc) (q : proc) :
  In q ps -> pgen q = g -> In (mkProc (pgen q) (popts q) (pbuf q) st) (set_status g st ps).
Proof.
  intros Hq Hg. unfold set_status. apply in_map_iff. exists q. split; auto.
  destruct (Nat.eqb_spec (pgen q) g); [reflexivity | contradiction].
Qed.

Lemma flags_emit (s : sched) (w : wire) : flags_inv s -> flags_inv (emit s w).
Proof. intros [H1 H2 H3]. constructor; simpl; auto. Qed.

Lemma finish_flags (p : proc) (sent : nat) (intr : bool) (s : sched) :
  isSendingAudio (finish p sent intr s) =
    (if opt_eqb (activeAudioGen s) (Some (pgen p)) then false else isSendingAudio s) /\
  greetingInProgress (finish p sent intr s) =
    (if is_greeting (popts p) then false else greetingInProgress s).
Proof.
  unfold finish.
  destruct (opt_eqb (activeAudioGen s) (Some (pgen p))), (is_greeting (popts p)), intr;
    split; reflexivity.
Qed.

Lemma flags_finish (s : sched) (p : proc) (sent : nat) (intr : bool) :
  NoDup (map pgen (procs s)) -> In p (procs s) ->
  (intr = true -> (sent < totalChunks (pbuf p))%nat) ->
  flags_inv s -> flags_inv (finish p sent intr s).
Proof.
  intros Hnd Hp Hsent [Hs Hg Hc].
  pose proof (finish_fields p sent intr s) as (_ & Ha & Hpr & _).
  pose proof (finish_flags p sent intr s) as [Fs Fg].
  set (s' := finish p sent intr s) in *.
  constructor.
  - rewrite Fs, Ha, Hpr.
    destruct (opt_eqb (activeAudioGen s) (Some (pgen p))) eqn:E.
    + apply opt_eqb_spec in E. split; [discriminate|].
      intros (q & i & Hq & Hqa & Hqs). rewrite E in Hqa. injection Hqa as Hqa.
      apply in_set_status in Hq as [(q0 & _ & _ & ->)|[_ Hne]]; [discriminate | congruence].
    + apply opt_eqb_false in E. rewrite Hs. split.
      * intros (q & i & Hq & Hqa & Hqs). exists q, i. split; auto.
        apply in_set_status_other; auto. intro Heq. rewrite Heq in Hqa. contradiction.
      * intros (q & i & Hq & Hqa & Hqs). exists q, i. split; auto.
        apply in_set_status in Hq as [(q0 & _ & Hg0 & ->)|[Hq _]]; [|exact Hq].
        simpl in Hqa. rewrite Hg0 in Hqa. contradiction.
  - rewrite Fg, Hpr. destruct (is_greeting (popts p)) eqn:Ep; [discriminate|].
    intro H. destruct (Hg H) as (q & i & Hq & Hqg & Hqs).
    exists q, i. split; auto. apply in_set_status_other; auto.
    intro Heq. rewrite (nodup_same_gen _ q p Hnd Hq Hp Heq) in Hqg. congruence.
  - rewrite Hpr. intros q k Hq Hqs.
    apply in_set_status in Hq as [(q0 & Hq0 & Hg0 & ->)|[Hq _]]; [|exact (Hc q k Hq Hqs)].
    simpl in *. injection Hqs as -> Hi.
    rewrite (nodup_same_gen _ q0 p Hnd Hq0 Hp Hg0).
    apply Hsent. destruct intr; [reflexivity | discriminate].
Qed.

Lemma flags_running (s : sched) (p : proc) (i j : nat) :
  NoDup (map pgen (procs s)) -> In p (procs s) -> pstatus p = Running i ->
  flags_inv s -> flags_inv (with_procs s (set_status (pgen p) (Running j) (procs s))).
Proof.
  intros Hnd Hp Hpi [Hs Hg Hc]. constructor; simpl.
  - rewrite Hs. split.
    + intros (q & k & Hq & Hqa & Hqs).
      destruct (Nat.eq_dec (pgen q) (pgen p)) as [E|E].
      * exists (mkProc (pgen q) (popts q) (pbuf q) (Running j)), j. simpl.
        split; auto. apply in_set_status_same; auto.
      * exists q, k. split; auto. apply in_set_status_other; auto.
    + intros (q & k & Hq & Hqa & Hqs).
      apply in_set_status in Hq as [(q0 & Hq0 & Hg0 & ->)|[Hq _]].
      * exists p, i. simpl in Hqa. rewrite Hg0 in Hqa. auto.
      * exists q, k. auto.
  - intro H. destruct (Hg H) as (q & k & Hq & Hqg & Hqs).
    destruct (Nat.eq_dec (pgen q) (pgen p)) as [E|E].
    + exists (mkProc (pgen q) (popts q) (pbuf q) (Running j)), j. simpl.
      split; auto. apply in_set_status_same; auto.
    + exists q, k. split; auto. apply in_set_status_other; auto.
  - intros q k Hq Hqs.
    apply in_set_status in Hq as [(q0 & _ & _ & ->)|[Hq _]]; [discriminate|].
    exact (Hc q k Hq Hqs).
Qed.

Lemma flags_start (buf : list Z) (o : send_opts) (s : sched) :
  flags_inv s -> flags_inv (start_send buf o s).
Proof.
  intros [Hs Hg Hc]. unfold start_send. constructor; simpl.
  - split; [intros _ | reflexivity].
    exists (mkProc (S (audioGenCounter s)) o buf (Running 0)), 0%nat.
    split; [apply in_or_app; right; left; reflexivity | split; reflexivity].
  - destruct (is_greeting o) eqn:Eo.
    + intros _. exists (mkProc (S (audioGenCounter s)) o buf (Running 0)), 0%nat.
      split; [apply in_or_app; right; left; reflexivity | split; [exact Eo | reflexivity]].
    + intro H. destruct (Hg H) as (q & k & Hq & Hqg & Hqs).
      exists q, k. split; auto. apply in_or_app. left. exact Hq.
  - intros q k Hq Hqs. apply in_app_or in Hq as [Hq|[<-|[]]]; [exact (Hc q k Hq Hqs)|].
    discriminate.
Qed.

Lemma flags_stop (s : sched) : flags_inv s -> flags_inv (requestStopAudio s).
Proof.
  intros H. unfold requestStopAudio.
  destruct (negb (isSendingAudio s)); [exact H|].
  destruct (match uninterruptibleAudioGen s with Some u => _ | None => false end);
    [exact H|].
  destruct H as [H1 H2 H3]. constructor; simpl; auto.
Qed.

Lemma flags_chunk (g : nat) (s : sched) :
  inv s -> flags_inv s -> flags_inv (chunk_step g s).
Proof.
  intros Hi Hf. pose proof (iv_nodup _ _ Hi) as Hnd.
  unfold chunk_step.
  destruct (find_proc g s) as [p|] eqn:Hfind; [|exact Hf].
  apply find_proc_some in Hfind as [Hp <-].
  destruct (pstatus p) as [i|k c] eqn:Hs; [|exact Hf].
  destruct (Nat.ltb_spec i (totalChunks (pbuf p))) as [Hlt|Hge].
  - destruct (opt_eqb (stopAudioGen s) (Some (pgen p))).
    + apply flags_finish; auto.
    + destruct (Nat.ltb (S i) (totalChunks (pbuf p))).
      * apply (flags_running _ p i); auto. apply flags_emit; exact Hf.
      * apply flags_finish; auto; [intro; discriminate | apply flags_emit; exact Hf].
  - apply flags_finish; auto. intro; discriminate.
Qed.

Lemma flags_run (evs : list ev) : flags_inv (run evs).
Proof.
  induction evs as [|e evs IH] using rev_ind; [exact flags_init|].
  rewrite run_snoc. destruct e; simpl.
  - apply flags_start; exact IH.
  - apply flags_chunk; [apply run_inv | exact IH].
  - apply flags_stop; exact IH.
Qed.

End SchedFlags.

(* ------------------------------------------------------------------ *)
(** *** Facts about the codec and the audio level *)

Module CodecFacts.
Import Mulaw Level.

Lemma check_range_sound (p : Z -> bool) (lo : Z) (k : nat) :
  check_range p lo k = true -> forall x, lo <= x < lo + Z.of_nat k -> p x = true.
Proof.
  revert lo; induction k as [|k IH]; intros lo H x Hx; [lia|].
  simpl in H. apply andb_prop in H as [H0 H1].
  destruct (Z.eq_dec x lo) as [->|Hne]; [exact H0|].
  apply (IH (lo + 1) H1). lia.
Qed.

(** The decoder only looks at the byte [~b & 0xFF]. *)
Definition dec_u (u : Z) : Z :=
  let sign := if Z.land u 128 =? 0 then 1 else -1 in
  let exponent := Z.land (Z.shiftr u 4) 7 in
  let mantissa := Z.land u 15 in
  let magnitude := Z.shiftl (Z.shiftl mantissa 3 + 132) exponent in
  sign * (magnitude - 132).

Lemma muLawToLinearSample_dec_u (b : Z) :
  muLawToLinearSample b = dec_u (Z.land (Z.lnot b) 255).
Proof. reflexivity. Qed.

Lemma land_255_range (a : Z) : 0 <= Z.land a 255 <= 255.
Proof.
  assert (E : Z.land a 255 = a mod 256) by (apply (Z.land_ones a 8); lia).
  rewrite E. pose proof (Z.mod_pos_bound a 256 ltac:(lia)). lia.
Qed.

Lemma dec_u_bound_check :
  check_range (fun u => Z.abs (dec_u u) <=? 32124) 0 256 = true.
Proof. vm_compute. reflexivity. Qed.

(** A decoded mu-law sample has magnitude at most 32124. *)
Lemma muLawToLinearSample_bound (b : Z) : Z.abs (muLawToLinearSample b) <= 32124.
Proof.
  rewrite muLawToLinearSample_dec_u.
  pose proof (land_255_range (Z.lnot b)) as Hr.
  assert (Hx : 0 <= Z.land (Z.lnot b) 255 < 0 + Z.of_nat 256) by lia.
  pose proof (check_range_sound _ _ _ dec_u_bound_check _ Hx) as H.
  now apply Z.leb_le in H.
Qed.

Lemma sum_sq_acc (l : list Z) (acc : Z) :
  acc <= fold_left (fun acc b => acc + muLawToLinearSample b * muLawToLinearSample b) l acc
      <= acc + Z.of_nat (length l) * (32124 * 32124).
Proof.
  revert acc; induction l as [|b l IH]; intro acc; simpl; [lia|].
  pose proof (muLawToLinearSample_bound b) as Hb.
  set (d := muLawToLinearSample b) in *.
  assert (0 <= d * d <= 32124 * 32124) by nia.
  specialize (IH (acc + d * d)). lia.
Qed.

Lemma sum_sq_bound (pre : list Z) :
  0 <= sum_sq pre <= Z.of_nat (length pre) * (32124 * 32124).
Proof. unfold sum_sq. pose proof (sum_sq_acc pre 0). lia. Qed.

Lemma byte_roundtrip_check : check_range byte_roundtrip_ok 0 256 = true.
Proof. vm_compute. reflexivity. Qed.

#[warnings="-abstract-large-number"]
Lemma sample_range_len : Z.of_nat 65536 = 65536.
Proof. vm_compute. reflexivity. Qed.

#[warnings="-abstract-large-number"]
Lemma sample_roundtrip_check : check_range sample_roundtrip_ok (-32768) 65536 = true.
Proof. vm_compute. reflexivity. Qed.

(** The level is [0] or the normalised RMS of the prefix, and lies in [[0, 100)]. *)
Lemma level_range (buf : list Z) :
  (0 <= calculateAudioLevel buf < 100)%R.
Proof.
  unfold calculateAudioLevel.
  destruct buf as [|b0 rest] eqn:Eb; [lra|].
  rewrite <- Eb.
  set (n := Nat.min 160 (length buf)).
  set (pre := firstn n buf).
  destruct (95 * n <? 100 * silent_count pre)%nat; [lra|].
  assert (Hn : (1 <= n)%nat) by (subst n buf; simpl; lia).
  assert (Hlen : length pre = n) by (subst pre; apply firstn_length_le; subst n; lia).
  pose proof (sum_sq_bound pre) as [HS0 HS1]. rewrite Hlen in HS1.
  assert (HnR : (1 <= INR n)%R) by (apply (le_INR 1); exact Hn).
  assert (HSR0 : (0 <= IZR (sum_sq pre))%R) by (apply IZR_le; lia).
  assert (HSR1 : (IZR (sum_sq pre) <= INR n * (32124 * 32124))%R).
  { rewrite INR_IZR_INZ. rewrite <- !mult_IZR. apply IZR_le. lia. }
  assert (Hq0 : (0 <= IZR (sum_sq pre) / INR n)%R).
  { unfold Rdiv. apply Rmult_le_pos; [lra|]. left. apply Rinv_0_lt_compat. lra. }
  assert (Hq1 : (IZR (sum_sq pre) / INR n <= 32124 * 32124)%R).
  { apply (Rmult_le_reg_r (INR n)); [lra|]. unfold Rdiv.
    rewrite Rmult_assoc, Rinv_l by lra. lra. }
  assert (Hr0 : (0 <= sqrt (IZR (sum_sq pre) / INR n))%R) by apply sqrt_pos.
  assert (Hr1 : (sqrt (IZR (sum_sq pre) / INR n) <= 32124)%R).
  { rewrite <- (sqrt_square 32124) by lra. now apply sqrt_le_1_alt. }
  lra.
Qed.

(** The integer test of the media handler decides the source's
    comparison [calculateAudioLevel(audioData) > threshold]. *)
Lemma level_exceeds_spec (th : Z) (buf : list Z) :
  Media.level_exceeds th buf = true <-> (IZR th < calculateAudioLevel buf)%R.
Proof.
  pose proof (level_range buf) as [HL0 _].
  unfold Media.level_exceeds.
  destruct (th <? 0) eqn:Ht.
  { apply Z.ltb_lt in Ht. apply IZR_lt in Ht. split; [intros _; lra | auto]. }
  apply Z.ltb_ge in Ht. apply IZR_le in Ht.
  revert HL0. unfold calculateAudioLevel.
  destruct buf as [|b0 rest] eqn:Eb; [split; [discriminate | lra]|].
  rewrite <- Eb. intros HL0.
  set (n := Nat.min 160 (length buf)) in *.
  set (pre := firstn n buf) in *.
  destruct (95 * n <? 100 * silent_count pre)%nat; [split; [discriminate | lra]|].
  assert (Hn : (1 <= n)%nat) by (subst n buf; simpl; lia).
  assert (HnR : (1 <= INR n)%R) by (apply (le_INR 1); exact Hn).
  pose proof (sum_sq_bound pre) as [HS0 _].
  assert (HSR0 : (0 <= IZR (sum_sq pre))%R) by (apply IZR_le; lia).
  set (q := (IZR (sum_sq pre) / INR n)%R) in *.
  assert (Hqn : (q * INR n = IZR (sum_sq pre))%R).
  { subst q. unfold Rdiv. rewrite Rmult_assoc, Rinv_l by lra. lra. }
  assert (Hq0 : (0 <= q)%R).
  { subst q. unfold Rdiv. apply Rmult_le_pos; [lra|]. left. apply Rinv_0_lt_compat. lra. }
  set (r := sqrt q) in *.
  assert (Hr0 : (0 <= r)%R) by apply sqrt_pos.
  assert (Hrr : (r * r = q)%R) by (apply sqrt_sqrt; exact Hq0).
  set (a := IZR th) in *.
  rewrite Z.ltb_lt. split.
  - intros H. apply IZR_lt in H. rewrite !mult_IZR in H.
    rewrite <- INR_IZR_INZ in H. fold a in H.
    destruct (Rlt_or_le a (r / 32768 * 100)) as [Hlt|Hge]; [exact Hlt|].
    exfalso.
    assert (H1 : (100 * r <= 32768 * a)%R) by lra.
    assert (H2 : (10000 * q <= 32768 * 32768 * (a * a))%R) by nra.
    assert (H3 : (10000 * q * INR n <= 32768 * 32768 * (a * a) * INR n)%R) by nra.
    replace (10000 * q * INR n)%R with (10000 * IZR (sum_sq pre))%R in H3
      by (rewrite <- Hqn; ring). lra.
  - intros H.
    assert (H1 : (32768 * a < 100 * r)%R) by lra.
    assert (H2 : (32768 * 32768 * (a * a) < 10000 * q)%R) by nra.
    assert (H3 : (32768 * 32768 * (a * a) * INR n < 10000 * q * INR n)%R) by nra.
    replace (10000 * q * INR n)%R with (10000 * IZR (sum_sq pre))%R in H3
      by (rewrite <- Hqn; ring).
    apply lt_IZR. rewrite !mult_IZR. rewrite <- INR_IZR_INZ. fold a. lra.
Qed.

End CodecFacts.

(* ------------------------------------------------------------------ *)
(** *** Facts about the typed-array codec helpers *)

Module CodecArrayFacts.
Import Mulaw Level MulawArray CodecFacts.

(** The frontend decoder as a function of [u = ~b & 0xFF]. *)
Definition dec16_u (u : Z) : Z :=
  let sign := Z.land u 128 in
  let exponent := Z.land (Z.shiftr u 4) 7 in
  let mantissa := Z.land u 15 in
  let pcm := Z.shiftl (Z.shiftl mantissa 3 + BIAS) exponent - BIAS in
  if sign =? 0 then pcm else - pcm.

Lemma muLawToLinear16Sample_dec16_u (b : Z) :
  muLawToLinear16Sample b = dec16_u (Z.land (Z.lnot b) 255).
Proof. reflexivity. Qed.

Lemma decoders_agree_check :
  check_range (fun u => dec16_u u =? dec_u u) 0 256 = true.
Proof. vm_compute. reflexivity. Qed.

Lemma decoders_agree (b : Z) : muLawToLinear16Sample b = muLawToLinearSample b.
Proof.
  rewrite muLawToLinear16Sample_dec16_u, muLawToLinearSample_dec_u.
  pose proof (land_255_range (Z.lnot b)) as Hr.
  assert (Hx : 0 <= Z.land (Z.lnot b) 255 < 0 + Z.of_nat 256) by lia.
  pose proof (check_range_sound _ _ _ decoders_agree_check _ Hx) as H.
  now apply Z.eqb_eq in H.
Qed.

Lemma muLawToLinear16Sample_bound (b : Z) : Z.abs (muLawToLinear16Sample b) <= 32124.
Proof. rewrite decoders_agree. apply muLawToLinearSample_bound. Qed.

Lemma linear16ToMuLawSample_range (x : Z) : 0 <= linear16ToMuLawSample x <= 255.
Proof. unfold linear16ToMuLawSample. destruct (_ : Z * Z). apply land_255_range. Qed.

Lemma to_uint8_id (v : Z) : 0 <= v <= 255 -> to_uint8 v = v.
Proof. intro H. unfold to_uint8. apply Z.mod_small. lia. Qed.

Lemma to_int16_id (v : Z) : -32768 <= v <= 32767 -> to_int16 v = v.
Proof. intro H. unfold to_int16. rewrite Z.mod_small by lia. lia. Qed.

Lemma store_enc (x : Z) : to_uint8 (linear16ToMuLawSample x) = linear16ToMuLawSample x.
Proof. apply to_uint8_id, linear16ToMuLawSample_range. Qed.

Lemma store_dec (b : Z) : to_int16 (muLawToLinear16Sample b) = muLawToLinear16Sample b.
Proof. apply to_int16_id. pose proof (muLawToLinear16Sample_bound b). lia. Qed.

Lemma pcm16ToMuLaw_eq (l : list Z) : pcm16ToMuLaw l = map linear16ToMuLawSample l.
Proof. unfold pcm16ToMuLaw. apply map_ext. apply store_enc. Qed.

Lemma muLawToPcm16_eq (l : list Z) : muLawToPcm16 l = map muLawToLinear16Sample l.
Proof. unfold muLawToPcm16. apply map_ext. apply store_dec. Qed.

(** Monotonicity of the quantiser, checked on consecutive samples. *)
Definition mono_ok (x : Z) : bool :=
  muLawToLinear16Sample (linear16ToMuLawSample x)
    <=? muLawToLinear16Sample (linear16ToMuLawSample (x + 1)).

#[warnings="-abstract-large-number"]
Lemma mono_check : check_range mono_ok (-32768) 65535 = true.
Proof. vm_compute. reflexivity. Qed.

#[warnings="-abstract-large-number"]
Lemma mono_range_len : Z.of_nat 65535 = 65535.
Proof. vm_compute. reflexivity. Qed.

Lemma mono_step (x : Z) : -32768 <= x < 32767 ->
  muLawToLinear16Sample (linear16ToMuLawSample x)
    <= muLawToLinear16Sample (linear16ToMuLawSample (x + 1)).
Proof.
  intro H. apply Z.leb_le. apply (check_range_sound _ _ _ mono_check).
  rewrite mono_range_len. lia.
Qed.

Lemma mono_dist (d : nat) (x : Z) : -32768 <= x -> x + Z.of_nat d <= 32767 ->
  muLawToLinear16Sample (linear16ToMuLawSample x)
    <= muLawToLinear16Sample (linear16ToMuLawSample (x + Z.of_nat d)).
Proof.
  induction d as [|d IH]; intros H1 H2.
  - rewrite Z.add_0_r. lia.
  - rewrite Nat2Z.inj_succ in *.
    replace (x + Z.succ (Z.of_nat d)) with (x + Z.of_nat d + 1) by lia.
    pose proof (IH H1 ltac:(lia)). pose proof (mono_step (x + Z.of_nat d) ltac:(lia)). lia.
Qed.

(** Sign symmetry, checked exhaustively. *)
Definition dec_sign_ok (b : Z) : bool :=
  muLawToLinear16Sample (Z.lxor b 128) =? - muLawToLinear16Sample b.

Definition enc_sign_ok (x : Z) : bool :=
  linear16ToMuLawSample (- x) =? Z.lxor (linear16ToMuLawSample x) 128.

Lemma dec_sign_check : check_range dec_sign_ok 0 256 = true.
Proof. vm_compute. reflexivity. Qed.

#[warnings="-abstract-large-number"]
Lemma enc_sign_check : check_range enc_sign_ok 1 32767 = true.
Proof. vm_compute. reflexivity. Qed.

#[warnings="-abstract-large-number"]
Lemma enc_sign_len : Z.of_nat 32767 = 32767.
Proof. vm_compute. reflexivity. Qed.


(** The level of a non-empty buffer, unfolded. *)
Lemma level_body (buf : list Z) : buf <> [] ->
  calculateAudioLevel buf =
  (let sampleSize := Nat.min 160 (length buf) in
   let pre := firstn sampleSize buf in
   if (95 * sampleSize <? 100 * silent_count pre)%nat then 0%R
   else (sqrt (IZR (sum_sq pre) / INR sampleSize) / 32768 * 100)%R).
Proof. destruct buf; [contradiction|reflexivity]. Qed.

End CodecArrayFacts.

(* ------------------------------------------------------------------ *)
(** *** Facts about segment merging *)

Module MergeFacts.
Import Merge.

Lemma queued_app (a b : list mev) : queued (a ++ b) = queued a ++ queued b.
Proof. induction a as [|[] a IH]; simpl; try rewrite IH; reflexivity. Qed.

Lemma run_merge_snoc (evs : list mev) (e : mev) :
  run_merge (evs ++ [e]) = mstep (run_merge evs) e.
Proof. unfold run_merge. now rewrite fold_left_app. Qed.

Lemma merged_concat (segs : list (list Z)) :
  match segs with [x] => x | _ => concat segs end = concat segs.
Proof. destruct segs as [|x [|y r]]; simpl; try rewrite app_nil_r; reflexivity. Qed.

Lemma concat_nonempty (segs : list (list Z)) :
  segs <> [] -> Forall (fun m => m <> []) segs -> concat segs <> [].
Proof.
  intros Hn Hf. destruct segs as [|x r]; [contradiction|].
  inversion Hf; subst. simpl. intro H. apply app_eq_nil in H as [H _]. contradiction.
Qed.

End MergeFacts.

(* ------------------------------------------------------------------ *)
(** *** Facts about the media handler *)

Module MediaFacts.
Import Media.

(** Effects emitted before the end-of-speech decision. *)
Definition plain (x : effect) : Prop :=
  match x with
  | BindStreamFromMedia _ | StartGreeting | SpeechStart | RequestStop | CancelPending => True
  | _ => False
  end.

Lemma bind_shape (greet : option (list Z)) (s : media_state) (m : media_msg) :
  Forall plain (snd (bind_from_media greet s m)) /\
  pendingUserSegments (fst (bind_from_media greet s m)) = pendingUserSegments s.
Proof.
  unfold bind_from_media.
  destruct (negb (startReceived s) && js_truthy_str (msgStreamSid m)); simpl;
    [destruct greet|]; simpl; repeat constructor.
Qed.

Lemma start_plain (s : media_state) (now : Z) :
  Forall plain (snd (start_segment s now)).
Proof.
  unfold start_segment; simpl.
  destruct (isSendingAudio s), (pendingProcessTimer s); simpl; repeat constructor.
Qed.

Lemma eos_props (cfg : vad_cfg) (s s' : media_state) (now : Z) (e : list effect) :
  end_of_speech cfg s now = (s', e) ->
  (forall seg, In (QueueSegment seg) e ->
     exists ms f, In (EosConfirmed ms (length seg) f) e /\
       (MIN_SPEECH_FRAMES cfg <= f)%nat /\ (MIN_SPEECH_BYTES cfg <= length seg)%nat /\
       MIN_SPEECH_MS cfg <= ms) /\
  (forall ms b f, In (EosConfirmed ms b f) e -> (0 < b)%nat ->
     (f < MIN_SPEECH_FRAMES cfg)%nat \/ (b < MIN_SPEECH_BYTES cfg)%nat \/ ms < MIN_SPEECH_MS cfg ->
     In SegmentDrop e /\ ~ In PlayFiller e /\ (forall seg, ~ In (QueueSegment seg) e) /\
     pendingUserSegments s' = pendingUserSegments s).
Proof.
  unfold end_of_speech.
  set (kept := firstn _ _). set (combined := concat kept).
  set (sm := match speechStartMs s with Some t => _ | None => 0 end).
  destruct (0 <? length combined)%nat eqn:Hc.
  - destruct ((length kept <? MIN_SPEECH_FRAMES cfg)%nat
              || (length combined <? MIN_SPEECH_BYTES cfg)%nat
              || (sm <? MIN_SPEECH_MS cfg)) eqn:Hd.
    + intros [= <- <-]. split.
      * intros seg [H|[H|[]]]; discriminate.
      * intros ms b f _ _ _. repeat split; simpl; auto.
        -- intros [H|[H|[]]]; discriminate.
        -- intros seg [H|[H|[]]]; discriminate.
    + intros [= <- <-].
      apply orb_false_iff in Hd as [Hd H3]. apply orb_false_iff in Hd as [H1 H2].
      apply Nat.ltb_ge in H1. apply Nat.ltb_ge in H2. apply Z.ltb_ge in H3.
      split.
      * intros seg [H|[H|[H|[]]]]; try discriminate. injection H as <-.
        exists sm, (length kept). simpl. auto.
      * intros ms b f [H|[H|[H|[]]]] _ Hlow; try discriminate.
        injection H as <- <- <-. exfalso. lia.
  - intros [= <- <-]. apply Nat.ltb_ge in Hc. split.
    + intros seg [H|[]]; discriminate.
    + intros ms b f [H|[]] Hb. injection H as <- <- <-. lia.
Qed.

Lemma vad_shape (cfg : vad_cfg) (s : media_state) (audio : list Z) (now : Z) :
  exists pre E s3,
    snd (vad_frame cfg s audio now) = pre ++ E /\ Forall plain pre /\
    ((E = [] /\ pendingUserSegments (fst (vad_frame cfg s audio now)) = pendingUserSegments s)
     \/ (pendingUserSegments s3 = pendingUserSegments s /\
         end_of_speech cfg s3 now = (fst (vad_frame cfg s audio now), E))).
Proof.
  unfold vad_frame.
  set (th := if isSendingAudio s then _ else _).
  set (sp := level_exceeds th audio).
  set (warm := if sp then _ else _).
  set (s0 := with_warmup s warm).
  destruct (negb (speechActive s0) && _) eqn:Hq.
  { exists [], [], s. simpl. split; auto. }
  set (st := if speechActive s0 then (s0, []) else start_segment s0 now).
  assert (Hst : Forall plain (snd st) /\ pendingUserSegments (fst st) = pendingUserSegments s).
  { subst st. destruct (speechActive s0); [simpl; auto|].
    split; [apply start_plain | reflexivity]. }
  destruct st as [s1 e1]. simpl in Hst. destruct Hst as [Hp Hpend].
  set (s2 := push_frame s1 audio sp now).
  assert (H2 : pendingUserSegments s2 = pendingUserSegments s).
  { subst s2. unfold push_frame. destruct sp; simpl; exact Hpend. }
  destruct (speechActive s2 && _ && negb sp) eqn:He.
  - destruct (end_of_speech cfg s2 now) as [s3 e3] eqn:Heos.
    exists e1, e3, s2. simpl. auto.
  - exists e1, [], s2. simpl. rewrite app_nil_r. auto.
Qed.

Lemma handle_shape (cfg : vad_cfg) (greet : option (list Z)) (s : media_state)
  (m : media_msg) (now : Z) :
  exists pre E s3,
    snd (handleInboundMediaMessage cfg greet s m now) = pre ++ E /\ Forall plain pre /\
    ((E = [] /\ pendingUserSegments (fst (handleInboundMediaMessage cfg greet s m now))
                = pendingUserSegments s)
     \/ (pendingUserSegments s3 = pendingUserSegments s /\
         end_of_speech cfg s3 now = (fst (handleInboundMediaMessage cfg greet s m now), E))).
Proof.
  unfold handleInboundMediaMessage.
  destruct (track_ignored m); [exists [], [], s; simpl; auto|].
  destruct (greetingInProgress s); [exists [], [], s; simpl; auto|].
  pose proof (bind_shape greet s m) as [Hb Hbp].
  destruct (bind_from_media greet s m) as [s1 e1]. simpl in Hb, Hbp.
  destruct (payload m) as [audio|].
  - pose proof (vad_shape cfg s1 audio now) as (pre & E & s3 & Heq & Hpre & Hor).
    destruct (vad_frame cfg s1 audio now) as [s2 e2]. simpl in *.
    exists (e1 ++ pre), E, s3. rewrite Heq, app_assoc. split; [reflexivity|].
    split; [apply Forall_app; auto|].
    destruct Hor as [[-> Hp]|[Hp Heos]]; [left | right]; split; congruence.
  - exists e1, [], s1. simpl. rewrite app_nil_r. auto.
Qed.

Lemma in_plain_app (pre E : list effect) (x : effect) :
  Forall plain pre -> ~ plain x -> In x (pre ++ E) -> In x E.
Proof.
  intros Hp Hx Hin. apply in_app_or in Hin as [Hin|Hin]; auto.
  rewrite Forall_forall in Hp. exfalso. exact (Hx (Hp x Hin)).
Qed.

End MediaFacts.

(* ------------------------------------------------------------------ *)
(** *** Segment bookkeeping and barge-in of the media handler *)

Module MediaSegFacts.
Import Media.

(** The segments handed to [queueOrMergeIncomingSegment], in order. *)
Definition queued_of (effs : list effect) : list (list Z) :=
  flat_map (fun e => match e with QueueSegment seg => [seg] | _ => [] end) effs.

(** The segment buffer invariant: outside speech the buffer is empty and
    the last-speech index is [-1]; the index always points into the
    buffer or is [-1]. *)
Definition seg_inv (s : media_state) : Prop :=
  (speechActive s = false -> segmentBuffers s = [] /\ segmentLastNonSilentIndex s = -1) /\
  -1 <= segmentLastNonSilentIndex s < Z.of_nat (length (segmentBuffers s)).

(** The speech-start decision of [vad_frame]. *)
Definition vad_starts (cfg : vad_cfg) (s : media_state) (audio : list Z) : bool :=
  let threshold :=
    if isSendingAudio s then VAD_THRESHOLD_WHILE_PLAYING cfg else VAD_THRESHOLD cfg in
  let warm := if level_exceeds threshold audio then S (speechWarmup s) else 0%nat in
  let warmupNeeded :=
    if isSendingAudio s then SPEECH_WARMUP_FRAMES_WHILE_PLAYING cfg
    else SPEECH_WARMUP_FRAMES cfg in
  negb (speechActive s) && Nat.leb warmupNeeded warm.

Ltac not_in :=
  let H := fresh in intro H;
  repeat match goal with H : _ \/ _ |- _ => destruct H end;
  solve [discriminate | contradiction].

Lemma in_app_not_r {A} (a b : list A) (x : A) : ~ In x b -> (In x (a ++ b) <-> In x a).
Proof. intro H. rewrite in_app_iff. tauto. Qed.

Lemma in_app_not_l {A} (a b : list A) (x : A) : ~ In x a -> (In x (a ++ b) <-> In x b).
Proof. intro H. rewrite in_app_iff. tauto. Qed.

Ltac triv_branch :=
  rewrite ?app_nil_r, ?andb_true_r; split; [exact (fun H => H)|];
  repeat split; auto; try tauto; intros;
  repeat match goal with H : _ /\ _ |- _ => destruct H end; discriminate.

Lemma queued_of_app (a b : list effect) : queued_of (a ++ b) = queued_of a ++ queued_of b.
Proof. apply flat_map_app. Qed.

Lemma eos_seg (cfg : vad_cfg) (s : media_state) (now : Z) :
  let r := end_of_speech cfg s now in
  seg_inv (fst r) /\ speechActive (fst r) = false /\
  isSendingAudio (fst r) = isSendingAudio s /\
  pendingUserSegments (fst r) = pendingUserSegments s ++ queued_of (snd r) /\
  pendingProcessTimer (fst r) =
    match queued_of (snd r) with [] => pendingProcessTimer s | _ => true end /\
  ~ In SpeechStart (snd r) /\ ~ In RequestStop (snd r) /\ ~ In CancelPending (snd r).
Proof.
  unfold end_of_speech. cbv zeta.
  destruct (0 <? _)%nat; [destruct (_ || _ || _)|]; simpl;
    rewrite ?app_nil_r; unfold seg_inv; simpl;
    repeat split; try lia; try not_in; intros; discriminate.
Qed.

Lemma start_seg (s : media_state) (now : Z) :
  let r := start_segment s now in
  seg_inv (fst r) /\ speechActive (fst r) = true /\
  isSendingAudio (fst r) = isSendingAudio s /\
  pendingUserSegments (fst r) = pendingUserSegments s /\
  pendingProcessTimer (fst r) = false /\ queued_of (snd r) = [] /\
  In SpeechStart (snd r) /\
  (In RequestStop (snd r) <-> isSendingAudio s = true) /\
  (In CancelPending (snd r) <-> pendingProcessTimer s = true).
Proof.
  unfold start_segment, seg_inv. simpl.
  destruct (isSendingAudio s), (pendingProcessTimer s); simpl;
    repeat split; try lia; auto; intros;
    repeat match goal with H : _ \/ _ |- _ => destruct H end;
    try discriminate; try contradiction.
Qed.

Lemma push_seg (s : media_state) (audio : list Z) (sp : bool) (now : Z) :
  seg_inv s -> speechActive s = true ->
  let s' := push_frame s audio sp now in
  seg_inv s' /\ speechActive s' = true /\ isSendingAudio s' = isSendingAudio s /\
  pendingUserSegments s' = pendingUserSegments s /\
  pendingProcessTimer s' = pendingProcessTimer s.
Proof.
  intros [_ Hi] Ha. unfold push_frame, seg_inv.
  destruct sp; simpl; rewrite length_app; simpl; rewrite Nat2Z.inj_add; simpl;
    (split; [split; [intro H; congruence | lia] | repeat split; auto]).
Qed.

Lemma vad_seg (cfg : vad_cfg) (s : media_state) (audio : list Z) (now : Z) :
  let r := vad_frame cfg s audio now in
  (seg_inv s -> seg_inv (fst r)) /\
  pendingUserSegments (fst r) = pendingUserSegments s ++ queued_of (snd r) /\
  pendingProcessTimer (fst r) =
    match queued_of (snd r) with
    | [] => pendingProcessTimer s && negb (vad_starts cfg s audio)
    | _ => true
    end /\
  (In SpeechStart (snd r) <-> vad_starts cfg s audio = true) /\
  (In RequestStop (snd r) <-> vad_starts cfg s audio = true /\ isSendingAudio s = true) /\
  (In CancelPending (snd r) <->
     vad_starts cfg s audio = true /\ pendingProcessTimer s = true).
Proof.
  unfold vad_frame, vad_starts. cbv zeta.
  set (th := if isSendingAudio s then _ else _).
  set (sp := level_exceeds th audio).
  set (warm := if sp then _ else _).
  set (need := if isSendingAudio s then _ else _).
  set (s0 := with_warmup s warm).
  change (speechActive s0) with (speechActive s).
  destruct (negb (speechActive s) && negb (Nat.leb need warm)) eqn:Hq.
  { apply andb_prop in Hq as [Hq1 Hq2]. rewrite Hq1. apply negb_true_iff in Hq2.
    rewrite Hq2. simpl. rewrite app_nil_r, andb_true_r.
    split; [exact (fun H => H)|].
    repeat split; try tauto; intros; repeat match goal with H : _ /\ _ |- _ => destruct H end;
      discriminate. }
  assert (Hst : exists s1 e1,
    (if speechActive s then (s0, []) else start_segment s0 now) = (s1, e1) /\
    (seg_inv s -> seg_inv s1) /\ speechActive s1 = true /\
    isSendingAudio s1 = isSendingAudio s /\
    pendingUserSegments s1 = pendingUserSegments s /\ queued_of e1 = [] /\
    pendingProcessTimer s1 = pendingProcessTimer s && negb (negb (speechActive s) && Nat.leb need warm) /\
    (In SpeechStart e1 <-> negb (speechActive s) && Nat.leb need warm = true) /\
    (In RequestStop e1 <-> negb (speechActive s) && Nat.leb need warm = true /\ isSendingAudio s = true) /\
    (In CancelPending e1 <->
       negb (speechActive s) && Nat.leb need warm = true /\ pendingProcessTimer s = true)).
  { destruct (speechActive s) eqn:Ha.
    - exists s0, []. simpl. rewrite andb_true_r.
      split; [reflexivity|]. split; [exact (fun H => H)|].
      repeat split; auto; try tauto; intros;
        repeat match goal with H : _ /\ _ |- _ => destruct H end; discriminate.
    - simpl in Hq |- *. rewrite negb_false_iff in Hq. rewrite Hq.
      pose proof (start_seg s0 now) as (Hi & Ha1 & Hs & Hp & Ht & Hqd & Hss & Hrs & Hcs).
      destruct (start_segment s0 now) as [s1 e1]. simpl in *.
      exists s1, e1. rewrite andb_false_r.
      split; [reflexivity|]. split; [intros _; exact Hi|].
      do 5 (split; [assumption|]). split; [tauto|].
      split; [rewrite Hrs; tauto | rewrite Hcs; tauto]. }
  destruct Hst as (s1 & e1 & -> & Hi1 & Ha1 & Hs1 & Hp1 & Hq1 & Ht1 & HS1 & HR1 & HC1).
  set (s2 := push_frame s1 audio sp now).
  destruct (speechActive s2 && _ && negb sp).
  - destruct (end_of_speech cfg s2 now) as [s3 e3] eqn:Heos.
    pose proof (eos_seg cfg s2 now) as (Hi3 & _ & _ & Hp3 & Ht3 & HS3 & HR3 & HC3).
    rewrite Heos in *. simpl in *.
    assert (Hp2 : pendingUserSegments s2 = pendingUserSegments s1)
      by (subst s2; unfold push_frame; destruct sp; reflexivity).
    assert (Ht2 : pendingProcessTimer s2 = pendingProcessTimer s1)
      by (subst s2; unfold push_frame; destruct sp; reflexivity).
    rewrite queued_of_app, Hq1. simpl.
    rewrite (in_app_not_r _ _ _ HS3), (in_app_not_r _ _ _ HR3), (in_app_not_r _ _ _ HC3).
    split; [intros _; exact Hi3|].
    split; [rewrite Hp3, Hp2, Hp1; reflexivity|].
    split; [rewrite Ht3, Ht2, Ht1; reflexivity|].
    auto.
  - simpl. rewrite Hq1, app_nil_r.
    split; [intro H; apply (push_seg s1 audio sp now (Hi1 H) Ha1)|].
    split; [subst s2; unfold push_frame; destruct sp; exact Hp1|].
    split; [subst s2; unfold push_frame; destruct sp; exact Ht1|].
    auto.
Qed.

Lemma bind_seg (greet : option (list Z)) (s : media_state) (m : media_msg) :
  let r := bind_from_media greet s m in
  speechActive (fst r) = speechActive s /\ segmentBuffers (fst r) = segmentBuffers s /\
  segmentLastNonSilentIndex (fst r) = segmentLastNonSilentIndex s /\
  speechWarmup (fst r) = speechWarmup s /\
  pendingProcessTimer (fst r) = pendingProcessTimer s /\
  pendingUserSegments (fst r) = pendingUserSegments s /\
  queued_of (snd r) = [] /\
  ~ In SpeechStart (snd r) /\ ~ In RequestStop (snd r) /\ ~ In CancelPending (snd r).
Proof.
  unfold bind_from_media.
  destruct (negb (startReceived s) && js_truthy_str (msgStreamSid m)); simpl;
    [destruct greet|]; simpl;
    repeat split; auto; not_in.
Qed.

(** [isSendingAudio] as the VAD of the frame sees it. *)
Lemma bind_sending (greet : option (list Z)) (s : media_state) (m : media_msg) :
  isSendingAudio (fst (bind_from_media greet s m)) =
    match greet with
    | Some buf =>
        if negb (startReceived s) && js_truthy_str (msgStreamSid m)
        then greeting_sync buf else isSendingAudio s
    | None => isSendingAudio s
    end.
Proof.
  unfold bind_from_media.
  destruct (negb (startReceived s) && js_truthy_str (msgStreamSid m)), greet; reflexivity.
Qed.

Lemma seg_inv_fields (s t : media_state) :
  speechActive t = speechActive s -> segmentBuffers t = segmentBuffers s ->
  segmentLastNonSilentIndex t = segmentLastNonSilentIndex s -> seg_inv s -> seg_inv t.
Proof. unfold seg_inv. intros -> -> ->. auto. Qed.

Lemma handle_seg (cfg : vad_cfg) (greet : option (list Z)) (s : media_state)
  (m : media_msg) (now : Z) :
  let r := handleInboundMediaMessage cfg greet s m now in
  let s1 := fst (bind_from_media greet s m) in
  let starts :=
    negb (track_ignored m) && negb (greetingInProgress s) &&
    match payload m with Some audio => vad_starts cfg s1 audio | None => false end in
  (seg_inv s -> seg_inv (fst r)) /\
  pendingUserSegments (fst r) = pendingUserSegments s ++ queued_of (snd r) /\
  pendingProcessTimer (fst r) =
    match queued_of (snd r) with
    | [] => pendingProcessTimer s && negb starts
    | _ => true
    end /\
  (In SpeechStart (snd r) <-> starts = true) /\
  (In RequestStop (snd r) <-> starts = true /\ isSendingAudio s1 = true) /\
  (In CancelPending (snd r) <-> starts = true /\ pendingProcessTimer s = true).
Proof.
  unfold handleInboundMediaMessage. cbv zeta.
  destruct (track_ignored m); [simpl; triv_branch|].
  destruct (greetingInProgress s); [simpl; triv_branch|].
  pose proof (bind_seg greet s m) as (Ha & Hb & Hi & Hw & Ht & Hp & Hq & HS & HR & HC).
  destruct (bind_from_media greet s m) as [s1 e1]. simpl in *.
  destruct (payload m) as [audio|].
  - pose proof (vad_seg cfg s1 audio now) as (Vi & Vp & Vt & VS & VR & VC).
    destruct (vad_frame cfg s1 audio now) as [s2 e2]. simpl in *.
    rewrite queued_of_app, Hq. simpl.
    rewrite (in_app_not_l _ _ _ HS), (in_app_not_l _ _ _ HR), (in_app_not_l _ _ _ HC).
    split; [intro H; apply Vi; exact (seg_inv_fields s s1 Ha Hb Hi H)|].
    split; [rewrite Vp, Hp; reflexivity|].
    split; [rewrite Vt, Ht; reflexivity|].
    rewrite <- Ht. auto.
  - simpl. rewrite Hq, Hp, Ht, app_nil_r, andb_true_r.
    split; [intro H; exact (seg_inv_fields s s1 Ha Hb Hi H)|].
    repeat split; auto; try tauto; intros;
      repeat match goal with H : _ /\ _ |- _ => destruct H end; discriminate.
Qed.

(** The speech-start decision in terms of the source's real-valued level. *)
Lemma vad_starts_spec (cfg : vad_cfg) (s : media_state) (audio : list Z) :
  let playing := isSendingAudio s in
  let threshold := if playing then VAD_THRESHOLD_WHILE_PLAYING cfg else VAD_THRESHOLD cfg in
  let warmupNeeded :=
    if playing then SPEECH_WARMUP_FRAMES_WHILE_PLAYING cfg else SPEECH_WARMUP_FRAMES cfg in
  vad_starts cfg s audio = true <->
  speechActive s = false /\
  (warmupNeeded = 0%nat \/
   ((IZR threshold < Level.calculateAudioLevel audio)%R /\ (warmupNeeded <= S (speechWarmup s))%nat)).
Proof.
  unfold vad_starts. cbv zeta.
  set (th := if isSendingAudio s then VAD_THRESHOLD_WHILE_PLAYING cfg else VAD_THRESHOLD cfg).
  set (need := if isSendingAudio s then SPEECH_WARMUP_FRAMES_WHILE_PLAYING cfg
               else SPEECH_WARMUP_FRAMES cfg).
  pose proof (CodecFacts.level_exceeds_spec th audio) as Hl.
  destruct (level_exceeds th audio) eqn:E.
  - destruct (speechActive s); simpl.
    + split; [discriminate | intros [H _]; discriminate].
    + rewrite Nat.leb_le. assert (HL : (IZR th < Level.calculateAudioLevel audio)%R) by tauto.
      split; [intro H; split; auto; right; auto | intros [_ [H|[_ H]]]; lia].
  - destruct (speechActive s); simpl.
    + split; [discriminate | intros [H _]; discriminate].
    + rewrite Nat.leb_le. split.
      * intro H. split; auto. left. lia.
      * intros [_ [H|[H _]]]; [lia|]. apply Hl in H. discriminate.
Qed.

End MediaSegFacts.

(* ------------------------------------------------------------------ *)
(** *** Facts about the classifier *)

Module ClassifierFacts.
Import JsStr Classifier.

Lemma list_eqb_true (a b : list Z) : list_eqb a b = true -> a = b.
Proof.
  revert b; induction a as [|x a IH]; intros [|y b] H; simpl in H; try discriminate; auto.
  apply andb_prop in H as [H1 H2]. apply Z.eqb_eq in H1. subst y. f_equal. now apply IH.
Qed.

Lemma is_action_in (a : list Z) : is_action a = true -> In a ACTIONS.
Proof.
  unfold is_action. intro H. apply existsb_exists in H as [x [Hx Hxa]].
  apply list_eqb_true in Hxa. now subst x.
Qed.

Lemma normal_in : In (units "normal") ACTIONS.
Proof. left. reflexivity. Qed.

Lemma classify_action_in (json_parse : list Z -> option jvalue)
  (js_String : jvalue -> option (list Z)) (resp : rpc_result) :
  In (fst (classifyUserTurnWithAI json_parse js_String resp)) ACTIONS.
Proof.
  unfold classifyUserTurnWithAI.
  destruct resp as [|content]; [exact normal_in|].
  destruct (json_parse _) as [obj|]; [|exact normal_in].
  destruct (get_prop obj (units "action")) as [[| | | a | |]|]; try exact normal_in.
  destruct (is_action a) eqn:Ha; [|exact normal_in].
  apply is_action_in in Ha.
  destruct (js_truthy (get_prop obj (units "reason"))); [|exact Ha].
  destruct (get_prop obj (units "reason")) as [v|]; [|exact Ha].
  destruct (js_String v); [exact Ha | exact normal_in].
Qed.

End ClassifierFacts.

(* ------------------------------------------------------------------ *)
(** *** Facts about trimming and the turn loop *)

Module TurnFacts.
Import JsStr Turn.

Lemma drop_space_suffix (l : list Z) : exists p, l = p ++ drop_space l.
Proof.
  induction l as [|c r [p Hp]]; [exists []; reflexivity|]. simpl.
  destruct (is_js_space c); [exists (c :: p); simpl; f_equal; exact Hp | exists []; reflexivity].
Qed.

Lemma drop_space_head (l : list Z) (c : Z) (r : list Z) :
  drop_space l = c :: r -> is_js_space c = false.
Proof.
  induction l as [|x l IH]; simpl; [discriminate|].
  destruct (is_js_space x) eqn:E; [exact IH|]. intros [= <- _]. exact E.
Qed.

Lemma drop_space_fix (l : list Z) :
  (forall c r, l = c :: r -> is_js_space c = false) -> drop_space l = l.
Proof.
  destruct l as [|c r]; intro H; [reflexivity|]. simpl. rewrite (H c r eq_refl). reflexivity.
Qed.

(** [trim] is idempotent. *)
Lemma js_trim_idem (l : list Z) : js_trim (js_trim l) = js_trim l.
Proof.
  unfold js_trim at 2 3.
  set (m := drop_space l). set (r := drop_space (rev m)).
  unfold js_trim.
  assert (H1 : drop_space (rev r) = rev r).
  { apply drop_space_fix. intros c t Hc.
    destruct (drop_space_suffix (rev m)) as [p Hp]. fold r in Hp.
    assert (Hm : m = rev r ++ rev p).
    { rewrite <- rev_app_distr, <- Hp, rev_involutive. reflexivity. }
    rewrite Hc in Hm. exact (drop_space_head l c (t ++ rev p) Hm). }
  rewrite H1, rev_involutive.
  assert (H2 : drop_space r = r).
  { apply drop_space_fix. intros c t Hc. exact (drop_space_head (rev m) c t Hc). }
  rewrite H2. reflexivity.
Qed.

Section Loop.
Variable transcribe : list Z -> option (list Z).
Variable classify : bool -> list Z -> list Z.
Variable chat : list (role * list Z) -> option (list Z).
Variable write : list (role * list Z) -> role -> list Z -> bool.

(** What one completed iteration leaves in the log and in the spoken
    replies: [None] for the empty-transcription prompt, [Some (u, a)] for
    a user message [u] answered by [a]. *)
Definition logged (o : option (list Z * list Z)) : list (role * list Z) :=
  match o with Some (u, a) => [(User, u); (Assistant, a)] | None => [] end.

Definition spoken (o : option (list Z * list Z)) : list Z :=
  match o with Some (_, a) => a | None => EMPTY_TRANSCRIPTION_REPLY end.

Definition user_ok (o : option (list Z * list Z)) : Prop :=
  match o with Some (u, _) => u <> [] /\ js_trim u = u | None => True end.

(** What an iteration that throws leaves in the log: nothing, or the
    user message stored before the exception. *)
Definition partial (lu : option (list Z)) : list (role * list Z) :=
  match lu with Some u => [(User, u)] | None => [] end.

Definition partial_ok (lu : option (list Z)) : Prop :=
  match lu with Some u => u <> [] /\ js_trim u = u | None => True end.

Lemma reply_outcome (text : list Z) (st st' : turn_state) (ok : bool) :
  reply write text st = (st', ok) ->
  if ok then conversations st' = conversations st ++ [(Assistant, text)] /\
             said st' = said st ++ [text]
  else st' = st.
Proof.
  unfold reply, store_msg. destruct (write (conversations st) Assistant text);
    intros [= <- <-]; [split|]; reflexivity.
Qed.

Lemma process_segment_outcome (seg : list Z) (st st' : turn_state) (ok : bool) :
  process_segment transcribe classify chat write seg st = (st', ok) ->
  if ok then
    exists o, conversations st' = conversations st ++ logged o /\
              said st' = said st ++ [spoken o] /\ user_ok o
  else
    said st' = said st /\
    exists lu, conversations st' = conversations st ++ partial lu /\ partial_ok lu.
Proof.
  unfold process_segment.
  destruct (transcribe seg) as [text|];
    [|intros [= <- <-]; split; [reflexivity | exists None; simpl; rewrite app_nil_r; auto]].
  cbv zeta.
  assert (Hid : js_trim (js_trim text) = js_trim text) by apply js_trim_idem.
  destruct (js_trim text) as [|c u] eqn:Et.
  { intros [= <- <-]. exists None. simpl. rewrite app_nil_r. auto. }
  assert (Hu : c :: u <> [] /\ js_trim (c :: u) = c :: u)
    by (split; [discriminate | exact Hid]).
  unfold store_msg at 1.
  destruct (write (conversations st) User (c :: u));
    [|intros [= <- <-]; split; [reflexivity | exists None; simpl; rewrite app_nil_r; auto]].
  set (st1 := log_msg User (c :: u) st).
  assert (Hfail : said st1 = said st /\
    exists lu, conversations st1 = conversations st ++ partial lu /\ partial_ok lu)
    by (split; [reflexivity | exists (Some (c :: u)); split; [reflexivity | exact Hu]]).
  assert (Hrep : forall text st0 st'' ok,
    conversations st0 = conversations st1 -> said st0 = said st1 ->
    reply write text st0 = (st'', ok) ->
    if ok then exists o, conversations st'' = conversations st ++ logged o /\
                         said st'' = said st ++ [spoken o] /\ user_ok o
    else said st'' = said st /\
         exists lu, conversations st'' = conversations st ++ partial lu /\ partial_ok lu).
  { intros text0 st0 st'' ok' Hc Hs Hr. apply reply_outcome in Hr.
    destruct ok'.
    - destruct Hr as [Hc' Hs']. exists (Some (c :: u, text0)).
      rewrite Hc', Hs', Hc, Hs. simpl. rewrite <- app_assoc. auto.
    - subst st''. rewrite Hc, Hs. exact Hfail. }
  repeat match goal with
  | |- context [if ?b then _ else _] =>
      lazymatch b with
      | ok => fail
      | _ => destruct b
      end
  end;
  try (apply Hrep; reflexivity).
  destruct (chat (conversations st1)) as [a|];
    [apply Hrep; reflexivity | intros [= <- <-]; exact Hfail].
Qed.

Lemma drain_outcomes (queue : list (list Z)) (st : turn_state) :
  exists outs lu,
    conversations (fst (drain transcribe classify chat write queue st))
      = conversations st ++ concat (map logged outs) ++ partial lu /\
    said (fst (drain transcribe classify chat write queue st))
      = said st ++ map spoken outs /\
    Forall user_ok outs /\ partial_ok lu.
Proof.
  revert st. induction queue as [|seg rest IH]; intro st; simpl.
  { exists [], None. simpl. rewrite !app_nil_r. auto. }
  destruct seg as [|b bs]; [apply IH|].
  destruct (process_segment transcribe classify chat write (b :: bs) st) as [st' ok] eqn:Hp.
  pose proof (process_segment_outcome _ _ _ _ Hp) as Ho. destruct ok.
  - destruct Ho as (o & Hc & Hs & Hu).
    destruct (IH st') as (outs & lu & Hc' & Hs' & Ho' & Hl).
    exists (o :: outs), lu. simpl. rewrite Hc', Hs', Hc, Hs, <- !app_assoc.
    split; [reflexivity|]. split; [reflexivity|]. split; [constructor; auto | exact Hl].
  - destruct Ho as (Hs & lu & Hc & Hl). exists [], lu. simpl. rewrite Hc, Hs, app_nil_r.
    auto.
Qed.

Lemma drain_rest (queue : list (list Z)) (st : turn_state) :
  snd (drain transcribe classify chat write queue st) = [] \/
  exists pre seg stp,
    queue = pre ++ seg :: snd (drain transcribe classify chat write queue st) /\
    seg <> [] /\
    drain transcribe classify chat write pre st = (stp, []) /\
    process_segment transcribe classify chat write seg stp
      = (fst (drain transcribe classify chat write queue st), false).
Proof.
  revert st. induction queue as [|seg rest IH]; intro st; simpl; [left; reflexivity|].
  destruct seg as [|b bs].
  - destruct (IH st) as [H|(pre & sg & stp & Hq & Hn & Hd & Hp)]; [left; exact H|].
    right. exists ([] :: pre), sg, stp. rewrite Hq at 1. auto.
  - destruct (process_segment transcribe classify chat write (b :: bs) st) as [st' ok] eqn:Hp.
    destruct ok.
    + destruct (IH st') as [H|(pre & sg & stp & Hq & Hn & Hd & Hp')]; [left; exact H|].
      right. exists ((b :: bs) :: pre), sg, stp. rewrite Hq at 1. simpl. rewrite Hp. auto.
    + right. exists [], (b :: bs), st. simpl. split; [reflexivity|].
      split; [discriminate|]. auto.
Qed.

(** When the Firestore writes and the chat call never throw, an
    iteration throws only at a failed transcription. *)
Lemma process_segment_fails_on_transcribe (seg : list Z) (st st' : turn_state) :
  (forall log r m, write log r m = true) -> (forall log, chat log <> None) ->
  process_segment transcribe classify chat write seg st = (st', false) ->
  transcribe seg = None.
Proof.
  intros Hw Hc. unfold process_segment.
  destruct (transcribe seg) as [text|]; [|reflexivity]. cbv zeta.
  destruct (js_trim text) as [|c u]; [discriminate|].
  unfold store_msg at 1. rewrite Hw.
  assert (Hr : forall t s0, snd (reply write t s0) = true)
    by (intros; unfold reply, store_msg; rewrite Hw; reflexivity).
  assert (Hn : forall t s0 s1, reply write t s0 <> (s1, false))
    by (intros t s0 s1 H; apply (f_equal snd) in H; rewrite Hr in H; discriminate).
  intro H. exfalso.
  repeat match goal with
  | H : context [if ?b then _ else _] |- _ => destruct b
  end; try exact (Hn _ _ _ H).
  match goal with H : context [chat ?l] |- _ => destruct (chat l) eqn:E end;
    [exact (Hn _ _ _ H) | exact (Hc _ E)].
Qed.

End Loop.
End TurnFacts.

(* ------------------------------------------------------------------ *)
(** ** The specification's properties *)

Module Claims.
Import Mulaw Level Sched SchedInv SchedTrace.



(** C2.  In every reachable state with a send in flight,
    [requestStopAudio] sets [_stopAudioGen := _activeAudioGen] exactly when
    [_uninterruptibleAudioGen <> _activeAudioGen]; otherwise the request is
    ignored and the state is unchanged. *)
Theorem request_stop_sets_stop_gen (evs : list ev) :
  isSendingAudio (run evs) = true ->
  (uninterruptibleAudioGen (run evs) <> activeAudioGen (run evs) ->
     requestStopAudio (run evs) = with_stop (run evs) (activeAudioGen (run evs))) /\
  (uninterruptibleAudioGen (run evs) = activeAudioGen (run evs) ->
     requestStopAudio (run evs) = run evs) /\
  (stopAudioGen (requestStopAudio (run evs)) = activeAudioGen (run evs) <->
     uninterruptibleAudioGen (run evs) <> activeAudioGen (run evs)).
Proof.
  pose proof (run_inv evs) as I. remember (run evs) as s eqn:Es. clear Es.
  intro H. unfold requestStopAudio. rewrite H. cbn [negb].
  destruct (activeAudioGen s) as [a|] eqn:Ea; [|exfalso; exact (iv_sending _ _ I H Ea)].
  destruct (uninterruptibleAudioGen s) as [u|] eqn:Eu.
  - pose proof (iv_unint_pos _ _ I u Eu) as Hu.
    assert (Hz : Nat.eqb u 0 = false) by (apply Nat.eqb_neq; lia).
    cbn [opt_eqb]. rewrite Hz. cbn [negb andb].
    destruct (Nat.eqb_spec u a) as [<-|Hne].
    + split; [intro C; now contradiction C|]. split; [reflexivity|].
      split; [|intro C; now contradiction C].
      intro Hs. destruct (iv_stop _ _ I u Hs) as [_ C]. now rewrite Eu in C.
    + split; [reflexivity|]. split; [intro C; injection C; contradiction|].
      split; [intros _; congruence | reflexivity].
  - split; [reflexivity|]. split; [discriminate|]. split; [intros _; discriminate | reflexivity].
Qed.

Lemma request_stop_sets_stop_gen_witness :
  isSendingAudio (run [EStart [1] (mkOpts None false)]) = true /\
  stopAudioGen (requestStopAudio (run [EStart [1] (mkOpts None false)]))
    = activeAudioGen (run [EStart [1] (mkOpts None false)]).
Proof.
  split; [reflexivity|].
  pose proof (request_stop_sets_stop_gen [EStart [1] (mkOpts None false)]
                ltac:(reflexivity)) as [_ [_ H]].
  apply H. intro C. vm_compute in C. discriminate C.
Defined.

(** C3.  For every send started with [uninterruptible], in every
    reachable state: it is never cut by a stop request; what it has
    written to the socket is, in order, a prefix of all its chunks
    followed by its [mark]; each loop step advances it by one chunk or
    completes it; and once finished it has written every chunk and the
    [mark]. *)
Theorem uninterruptible_send_completes (evs : list ev) (p : proc) :
  In p (procs (run evs)) -> uninterruptible (popts p) = true ->
  (forall k, pstatus p <> Finished k false) /\
  filter_gen (pgen p) (out (run evs)) = firstn (progress p) (expected p) /\
  (forall i, pstatus p = Running i ->
     exists p', find_proc (pgen p) (run (evs ++ [EChunk (pgen p)])) = Some p' /\
       (pstatus p' = Running (S i) \/ exists k, pstatus p' = Finished k true)) /\
  (forall k c, pstatus p = Finished k c -> filter_gen (pgen p) (out (run evs)) = expected p).
Proof.
  intros Hin Hun. pose proof (run_inv evs) as I.
  assert (Hsent : filter_gen (pgen p) (out (run evs)) = firstn (progress p) (expected p)).
  { apply (iv_sent _ _ I p Hin). pose proof (iv_gen _ _ I p Hin). lia. }
  assert (Hcut : forall k, pstatus p <> Finished k false)
    by (intro k; exact (iv_never_cut _ _ I p k Hin Hun)).
  split; [exact Hcut|]. split; [exact Hsent|]. split.
  - intros i Hr. rewrite run_snoc. apply chunk_step_advances; auto.
  - intros k [|] Hf; [|exfalso; exact (Hcut k Hf)].
    rewrite Hsent. unfold progress. rewrite Hf. apply SchedFacts.expected_full.
Qed.

Lemma uninterruptible_send_completes_witness :
  In (mkProc 1 (mkOpts (Some "greeting"%string) true) [1; 2] (Finished 1 true))
     (procs (run [EStart [1; 2] (mkOpts (Some "greeting"%string) true); EChunk 1])) /\
  filter_gen 1 (out (run [EStart [1; 2] (mkOpts (Some "greeting"%string) true); EChunk 1]))
    = [WMedia 1 [1; 2]; WMark 1].
Proof.
  assert (Hin : In (mkProc 1 (mkOpts (Some "greeting"%string) true) [1; 2] (Finished 1 true))
     (procs (run [EStart [1; 2] (mkOpts (Some "greeting"%string) true); EChunk 1])))
    by (vm_compute; left; reflexivity).
  split; [exact Hin|].
  pose proof (uninterruptible_send_completes _ _ Hin ltac:(reflexivity)) as [_ [_ [_ H]]].
  exact (H 1%nat true eq_refl).
Defined.

(** C4.  At end of speech, a segment handed on for processing (filler,
    merge queue, hence STT) has at least [MIN_SPEECH_FRAMES] kept frames,
    [MIN_SPEECH_BYTES] bytes and [MIN_SPEECH_MS] of speech, as logged by
    [eos_confirmed]; a non-empty segment below any minimum is dropped: no
    filler, nothing queued, the pending segments unchanged.  The defaults
    are 10, 1600 and 400. *)
Theorem segment_minimums (cfg : Media.vad_cfg) (greet : option (list Z))
  (s : Media.media_state) (m : Media.media_msg) (now : Z) :
  (Media.MIN_SPEECH_FRAMES Media.default_cfg = 10%nat /\
   Media.MIN_SPEECH_BYTES Media.default_cfg = 1600%nat /\
   Media.MIN_SPEECH_MS Media.default_cfg = 400) /\
  (forall seg, In (Media.QueueSegment seg) (snd (Media.handleInboundMediaMessage cfg greet s m now)) ->
     exists ms f,
       In (Media.EosConfirmed ms (length seg) f) (snd (Media.handleInboundMediaMessage cfg greet s m now)) /\
       (Media.MIN_SPEECH_FRAMES cfg <= f)%nat /\ (Media.MIN_SPEECH_BYTES cfg <= length seg)%nat /\
       Media.MIN_SPEECH_MS cfg <= ms) /\
  (forall ms b f,
     In (Media.EosConfirmed ms b f) (snd (Media.handleInboundMediaMessage cfg greet s m now)) ->
     (0 < b)%nat ->
     (f < Media.MIN_SPEECH_FRAMES cfg)%nat \/ (b < Media.MIN_SPEECH_BYTES cfg)%nat \/
       ms < Media.MIN_SPEECH_MS cfg ->
     In Media.SegmentDrop (snd (Media.handleInboundMediaMessage cfg greet s m now)) /\
     ~ In Media.PlayFiller (snd (Media.handleInboundMediaMessage cfg greet s m now)) /\
     (forall seg, ~ In (Media.QueueSegment seg) (snd (Media.handleInboundMediaMessage cfg greet s m now))) /\
     Media.pendingUserSegments (fst (Media.handleInboundMediaMessage cfg greet s m now))
       = Media.pendingUserSegments s).
Proof.
  pose proof (MediaFacts.handle_shape cfg greet s m now) as (pre & E & s3 & Heq & Hpre & Hor).
  split; [repeat split|]. rewrite Heq. split.
  - intros seg Hq. apply MediaFacts.in_plain_app in Hq; [|exact Hpre|simpl; tauto].
    destruct Hor as [[-> _]|[_ Heos]]; [destruct Hq|].
    destruct (MediaFacts.eos_props _ _ _ _ _ Heos) as [A _].
    destruct (A seg Hq) as (ms & f & Hin & B). exists ms, f.
    split; [apply in_or_app; right; exact Hin | exact B].
  - intros ms b f Hin Hb Hlow.
    apply MediaFacts.in_plain_app in Hin; [|exact Hpre|simpl; tauto].
    destruct Hor as [[-> _]|[Hp Heos]]; [destruct Hin|].
    destruct (MediaFacts.eos_props _ _ _ _ _ Heos) as [_ B].
    destruct (B ms b f Hin Hb Hlow) as (H1 & H2 & H3 & H4).
    split; [apply in_or_app; right; exact H1|]. split; [|split].
    + intro Hf. apply MediaFacts.in_plain_app in Hf; [exact (H2 Hf)|exact Hpre|simpl; tauto].
    + intros seg Hs. apply MediaFacts.in_plain_app in Hs; [exact (H3 seg Hs)|exact Hpre|simpl; tauto].
    + congruence.
Qed.

(** C5 (as amended).  Decoding then encoding a mu-law byte gives it back,
    except [0x7F] (negative zero), which re-encodes as [0xFF]; both
    decode to [0].  Encoding then decoding a 16-bit sample lands within
    half a quantisation step of the sample clipped to [+-32635]; for
    samples within [+-32635] that is the sample itself. *)
Theorem mulaw_roundtrip :
  (forall b, 0 <= b <= 255 ->
     linear16ToMuLawSample (muLawToLinear16Sample b) = if b =? 127 then 255 else b) /\
  muLawToLinear16Sample 127 = 0 /\ muLawToLinear16Sample 255 = 0 /\
  (forall x, -32768 <= x <= 32767 ->
     Z.abs (muLawToLinear16Sample (linear16ToMuLawSample x) - clip x) <= half_step (clip x)) /\
  (forall x, - CLIP <= x <= CLIP ->
     Z.abs (muLawToLinear16Sample (linear16ToMuLawSample x) - x) <= half_step x).
Proof.
  assert (Hb : forall b, 0 <= b <= 255 ->
            linear16ToMuLawSample (muLawToLinear16Sample b) = if b =? 127 then 255 else b).
  { intros b Hr. apply Z.eqb_eq.
    exact (CodecFacts.check_range_sound _ _ _ CodecFacts.byte_roundtrip_check b
             ltac:(lia)). }
  assert (Hs : forall x, -32768 <= x <= 32767 ->
            Z.abs (muLawToLinear16Sample (linear16ToMuLawSample x) - clip x)
            <= half_step (clip x)).
  { intros x Hr. apply Z.leb_le.
    apply (CodecFacts.check_range_sound _ _ _ CodecFacts.sample_roundtrip_check).
    rewrite CodecFacts.sample_range_len. lia. }
  split; [exact Hb|]. split; [reflexivity|]. split; [reflexivity|]. split; [exact Hs|].
  intros x Hr. unfold CLIP in Hr.
  assert (Hc : clip x = x) by (unfold clip, CLIP; lia).
  rewrite <- Hc at 2 3. apply Hs. lia.
Qed.

(** Counterexample to C5: the largest sample saturates, and its round
    trip misses it by more than half of any G.711 quantisation step. *)
Lemma mulaw_saturation_error :
  Z.abs (muLawToLinear16Sample (linear16ToMuLawSample 32767) - 32767) = 643 /\
  (forall y, half_step y <= 512).
Proof.
  split; [vm_compute; reflexivity|].
  intro y. unfold half_step, segment.
  change 512 with (2 ^ 9).
  apply Z.pow_le_mono_r; lia.
Qed.

(** C6.  While the greeting is in progress an inbound media frame is
    dropped: the handler returns the session unchanged (no VAD state
    touched) and has no effect (no speech start, no barge-in). *)
Theorem greeting_drops_media (cfg : Media.vad_cfg) (greet : option (list Z))
  (s : Media.media_state) (m : Media.media_msg) (now : Z) :
  Media.greetingInProgress s = true ->
  Media.handleInboundMediaMessage cfg greet s m now = (s, []).
Proof.
  intro H. unfold Media.handleInboundMediaMessage. rewrite H.
  destruct (Media.track_ignored m); reflexivity.
Qed.

Lemma greeting_drops_media_witness :
  Media.greetingInProgress
    (Media.mkMedia true true true (Some "MZ1"%string) true false [] (-1) 0
       None None None None false []) = true /\
  Media.handleInboundMediaMessage Media.default_cfg None
    (Media.mkMedia true true true (Some "MZ1"%string) true false [] (-1) 0
       None None None None false [])
    (Media.mkMsg (Some "inbound"%string) (Some [0; 0; 0]) None) 1000
  = (Media.mkMedia true true true (Some "MZ1"%string) true false [] (-1) 0
       None None None None false [], []).
Proof.
  split; [reflexivity|].
  apply greeting_drops_media. reflexivity.
Defined.

(** C7.  A non-empty queued segment whose transcription is empty after
    [trim] makes the loop say the fixed apology, log nothing to the
    conversation, and go on with the next queued segment. *)
Theorem empty_transcription_reprompts
  (transcribe : list Z -> option (list Z)) (classify : bool -> list Z -> list Z)
  (chat : list (Turn.role * list Z) -> option (list Z))
  (write : list (Turn.role * list Z) -> Turn.role -> list Z -> bool)
  (seg : list Z) (rest : list (list Z)) (st : Turn.turn_state) (text : list Z) :
  (0 < length seg)%nat ->
  transcribe seg = Some text ->
  JsStr.js_trim text = [] ->
  Turn.drain transcribe classify chat write (seg :: rest) st
  = Turn.drain transcribe classify chat write rest
      (Turn.mkTurn (Turn.conversations st)
         (Turn.said st ++ [Turn.EMPTY_TRANSCRIPTION_REPLY])
         (Turn.closingAsked st) (Turn.purposeCaptured st)).
Proof.
  intros Hlen Ht Htrim.
  destruct seg as [|x seg]; [simpl in Hlen; lia|].
  cbn [Turn.drain]. unfold Turn.process_segment. rewrite Ht, Htrim. reflexivity.
Qed.

Lemma empty_transcription_reprompts_witness :
  (0 < length [255; 255])%nat /\
  (fun _ : list Z => Some [32; 12288; 10]) [255; 255] = Some [32; 12288; 10] /\
  JsStr.js_trim [32; 12288; 10] = [] /\
  Turn.drain (fun _ => Some [32; 12288; 10]) (fun _ _ => JsStr.units "normal")
    (fun _ => Some []) (fun _ _ _ => true)
    [[255; 255]] (Turn.mkTurn [] [] false false)
  = (Turn.mkTurn [] [Turn.EMPTY_TRANSCRIPTION_REPLY] false false, []).
Proof.
  split; [simpl; lia|]. split; [reflexivity|]. split; [vm_compute; reflexivity|].
  rewrite (empty_transcription_reprompts (fun _ => Some [32; 12288; 10])
             (fun _ _ => JsStr.units "normal") (fun _ => Some []) (fun _ _ _ => true)
             [255; 255] [] (Turn.mkTurn [] [] false false) [32; 12288; 10]
             ltac:(simpl; lia) ltac:(reflexivity) ltac:(vm_compute; reflexivity)).
  reflexivity.
Defined.

(** C8.  Whatever the RPC, [JSON.parse] and [String] do, the classifier
    returns one of normal, take_message, closing, farewell; an RPC that
    throws or a reply that does not parse gives
    [("normal", "classifier_error")], and a parsed reply whose [action]
    is not one of the four gives [("normal", "invalid_action")]. *)
Theorem classifier_falls_back
  (json_parse : list Z -> option Classifier.jvalue)
  (js_String : Classifier.jvalue -> option (list Z)) :
  (forall resp,
     In (fst (Classifier.classifyUserTurnWithAI json_parse js_String resp)) Classifier.ACTIONS) /\
  Classifier.classifyUserTurnWithAI json_parse js_String Classifier.RpcThrows
    = Classifier.classifier_error /\
  (forall content,
     json_parse (JsStr.js_trim (match content with Some c => c | None => [] end)) = None ->
     Classifier.classifyUserTurnWithAI json_parse js_String (Classifier.RpcOk content)
       = Classifier.classifier_error) /\
  (forall content obj,
     json_parse (JsStr.js_trim (match content with Some c => c | None => [] end)) = Some obj ->
     match Classifier.get_prop obj (JsStr.units "action") with
     | Some (Classifier.JStr a) => Classifier.is_action a = false
     | _ => True
     end ->
     Classifier.classifyUserTurnWithAI json_parse js_String (Classifier.RpcOk content)
       = Classifier.invalid_action).
Proof.
  split; [intro resp; apply ClassifierFacts.classify_action_in|].
  split; [reflexivity|]. split.
  - intros content H. cbn [Classifier.classifyUserTurnWithAI]. now rewrite H.
  - intros content obj H Ha. cbn [Classifier.classifyUserTurnWithAI]. rewrite H.
    destruct (Classifier.get_prop obj (JsStr.units "action")) as [[| | | a | |]|];
      try reflexivity.
    now rewrite Ha.
Qed.

(** C9.  The audio level of any byte buffer lies in [[0, 100)]: it is 0
    for an empty buffer and when more than 95% of the first
    [min(160, length)] bytes are [0xFF], and otherwise the RMS of the
    decoded prefix over 32768, times 100, which stays below 100 because a
    decoded sample has magnitude at most 32124. *)
Theorem audio_level_range (buf : list Z) :
  (0 <= calculateAudioLevel buf < 100)%R /\
  calculateAudioLevel [] = 0%R /\
  ((95 * Nat.min 160 (length buf) <?
      100 * silent_count (firstn (Nat.min 160 (length buf)) buf))%nat = true ->
     calculateAudioLevel buf = 0%R) /\
  (buf <> [] ->
   (95 * Nat.min 160 (length buf) <?
      100 * silent_count (firstn (Nat.min 160 (length buf)) buf))%nat = false ->
   calculateAudioLevel buf
   = (sqrt (IZR (sum_sq (firstn (Nat.min 160 (length buf)) buf))
            / INR (Nat.min 160 (length buf))) / 32768 * 100)%R) /\
  (forall b, Z.abs (muLawToLinearSample b) <= 32124).
Proof.
  split; [apply CodecFacts.level_range|]. split; [reflexivity|].
  split; [|split; [|exact CodecFacts.muLawToLinearSample_bound]].
  - intro H. unfold calculateAudioLevel. destruct buf as [|b rest]; [reflexivity|].
    rewrite H. reflexivity.
  - intros Hne H. unfold calculateAudioLevel. destruct buf as [|b rest];
      [contradiction|]. rewrite H. reflexivity.
Qed.

(** C10.  A stop request only cuts the generation that was active when
    it was issued: whenever a send ends cut short, the trace contains a
    [requestStopAudio] issued while that generation was the active one,
    after which no new send started before the loop step that saw the
    stop; and starting a send clears any pending [_stopAudioGen]. *)
Theorem stop_cuts_only_active_gen (evs : list ev) (q : proc) (k : nat) :
  In q (procs (run evs)) -> pstatus q = Finished k false ->
  (exists pre mid post,
     evs = pre ++ EStop :: mid ++ EChunk (pgen q) :: post /\
     activeAudioGen (run pre) = Some (pgen q) /\
     isSendingAudio (run pre) = true /\ no_start mid) /\
  (forall buf o s, stopAudioGen (start_send buf o s) = None).
Proof.
  intros Hq Hst. split; [exact (cut_origin evs q k Hq Hst)|].
  intros. reflexivity.
Qed.

Lemma stop_cuts_only_active_gen_witness :
  In (mkProc 1 (mkOpts (Some "filler"%string) false) [1; 2] (Finished 0 false))
     (procs (run [EStart [1; 2] (mkOpts (Some "filler"%string) false); EStop; EChunk 1])) /\
  exists pre mid post,
    [EStart [1; 2] (mkOpts (Some "filler"%string) false); EStop; EChunk 1]
      = pre ++ EStop :: mid ++ EChunk 1 :: post /\
    activeAudioGen (run pre) = Some 1%nat /\ isSendingAudio (run pre) = true /\ no_start mid.
Proof.
  assert (Hin : In (mkProc 1 (mkOpts (Some "filler"%string) false) [1; 2] (Finished 0 false))
     (procs (run [EStart [1; 2] (mkOpts (Some "filler"%string) false); EStop; EChunk 1])))
    by (vm_compute; left; reflexivity).
  split; [exact Hin|].
  exact (proj1 (stop_cuts_only_active_gen _ _ _ Hin eq_refl)).
Defined.

End Claims.

(* ------------------------------------------------------------------ *)
(** ** Further properties of the code *)

Module Extras.
Import Mulaw Level MulawArray CodecFacts CodecArrayFacts.

(** X1.  The frontend decoder [muLawToLinear16Sample] (mulaw.ts) and the
    server decoder [muLawToLinearSample] (server.js) return the same
    sample for every input. *)
Theorem frontend_server_decoders_agree (b : Z) :
  muLawToLinear16Sample b = muLawToLinearSample b.
Proof. apply decoders_agree. Qed.

(** X2.  The typed-array stores of [pcm16ToMuLaw] and [muLawToPcm16]
    never wrap: every encoded byte is in [0, 255] and every decoded
    sample has magnitude at most 32124, inside the Int16 range; the
    arrays keep the input length. *)
Theorem typed_array_stores_exact (xs bs : list Z) :
  pcm16ToMuLaw xs = map linear16ToMuLawSample xs /\
  Forall (fun b => 0 <= b <= 255) (pcm16ToMuLaw xs) /\
  length (pcm16ToMuLaw xs) = length xs /\
  muLawToPcm16 bs = map muLawToLinear16Sample bs /\
  Forall (fun y => -32124 <= y <= 32124) (muLawToPcm16 bs) /\
  length (muLawToPcm16 bs) = length bs.
Proof.
  rewrite pcm16ToMuLaw_eq, muLawToPcm16_eq, !length_map.
  repeat split; try reflexivity; apply Forall_forall; intros y Hy;
    apply in_map_iff in Hy as [z [<- _]].
  - apply linear16ToMuLawSample_range.
  - pose proof (muLawToLinear16Sample_bound z). lia.
Qed.

(** X3.  Decoding a Uint8Array with [muLawToPcm16] and re-encoding with
    [pcm16ToMuLaw] gives the input back, except that byte [0x7F]
    (negative zero) comes back as [0xFF]. *)
Theorem array_byte_roundtrip (bs : list Z) :
  Forall (fun b => 0 <= b <= 255) bs ->
  pcm16ToMuLaw (muLawToPcm16 bs) = map (fun b => if b =? 127 then 255 else b) bs.
Proof.
  intro H. rewrite pcm16ToMuLaw_eq, muLawToPcm16_eq, map_map.
  apply map_ext_in. intros b Hb. rewrite Forall_forall in H. specialize (H b Hb).
  apply Z.eqb_eq.
  apply (check_range_sound _ _ _ byte_roundtrip_check). simpl. lia.
Qed.

Lemma array_byte_roundtrip_witness :
  Forall (fun b => 0 <= b <= 255) [0; 127; 200; 255] /\
  pcm16ToMuLaw (muLawToPcm16 [0; 127; 200; 255]) = [0; 255; 200; 255].
Proof.
  assert (H : Forall (fun b => 0 <= b <= 255) [0; 127; 200; 255])
    by (repeat constructor; lia).
  split; [exact H|]. exact (array_byte_roundtrip _ H).
Defined.

(** X4.  Encoding an Int16Array with [pcm16ToMuLaw] and decoding with
    [muLawToPcm16] returns an array of the same length whose every
    sample lies within half a quantisation step of the input saturated
    to [+-CLIP]. *)
Theorem array_sample_roundtrip (xs : list Z) :
  Forall (fun x => -32768 <= x <= 32767) xs ->
  Forall2 (fun x y => Z.abs (y - clip x) <= half_step (clip x))
          xs (muLawToPcm16 (pcm16ToMuLaw xs)).
Proof.
  intro H. rewrite pcm16ToMuLaw_eq, muLawToPcm16_eq, map_map.
  induction H as [|x xs Hx _ IH]; simpl; constructor; [|exact IH].
  apply Z.leb_le.
  apply (check_range_sound _ _ _ sample_roundtrip_check). rewrite sample_range_len. lia.
Qed.

Lemma array_sample_roundtrip_witness :
  Forall (fun x => -32768 <= x <= 32767) [-32768; -1; 0; 1000; 32767] /\
  Forall2 (fun x y => Z.abs (y - clip x) <= half_step (clip x))
          [-32768; -1; 0; 1000; 32767]
          (muLawToPcm16 (pcm16ToMuLaw [-32768; -1; 0; 1000; 32767])).
Proof.
  assert (H : Forall (fun x => -32768 <= x <= 32767) [-32768; -1; 0; 1000; 32767])
    by (repeat constructor; lia).
  split; [exact H|]. exact (array_sample_roundtrip _ H).
Defined.

(** X5.  The encode/decode quantiser is monotone: on Int16 samples,
    [x <= y] implies that [x] decodes back to a value no larger than [y]
    does. *)
Theorem quantiser_monotone (x y : Z) :
  -32768 <= x -> x <= y -> y <= 32767 ->
  muLawToLinear16Sample (linear16ToMuLawSample x)
    <= muLawToLinear16Sample (linear16ToMuLawSample y).
Proof.
  intros H1 H2 H3.
  replace y with (x + Z.of_nat (Z.to_nat (y - x))) by lia.
  apply mono_dist; lia.
Qed.

Lemma quantiser_monotone_witness :
  (-32768 <= -5 /\ -5 <= 7 /\ 7 <= 32767) /\
  muLawToLinear16Sample (linear16ToMuLawSample (-5))
    <= muLawToLinear16Sample (linear16ToMuLawSample 7).
Proof.
  split; [lia|]. apply quantiser_monotone; lia.
Defined.

(** X6.  Bit 7 of a mu-law byte is its sign: flipping it negates the
    decoded sample, and negating a sample in [1, 32767] flips exactly
    that bit of its encoding. *)
Theorem mulaw_sign_symmetry :
  (forall b, 0 <= b <= 255 ->
     muLawToLinear16Sample (Z.lxor b 128) = - muLawToLinear16Sample b) /\
  (forall x, 1 <= x <= 32767 ->
     linear16ToMuLawSample (- x) = Z.lxor (linear16ToMuLawSample x) 128).
Proof.
  split; intros v Hv; apply Z.eqb_eq.
  - apply (check_range_sound _ _ _ dec_sign_check). simpl. lia.
  - apply (check_range_sound _ _ _ enc_sign_check). rewrite enc_sign_len. lia.
Qed.

(** X7.  [calculateAudioLevel] only reads the first 160 bytes of its
    buffer: any bytes after them never change the level. *)
Theorem level_reads_first_160 (buf : list Z) :
  calculateAudioLevel buf = calculateAudioLevel (firstn 160 buf).
Proof.
  destruct buf as [|b rest] eqn:Eb; [reflexivity|].
  rewrite <- Eb.
  assert (Hne : buf <> []) by (subst buf; discriminate).
  assert (Hne' : firstn 160 buf <> []) by (subst buf; discriminate).
  rewrite (level_body _ Hne), (level_body _ Hne'). cbv zeta.
  rewrite length_firstn, Nat.min_assoc, Nat.min_id, firstn_firstn.
  replace (Nat.min (Nat.min 160 (length buf)) 160) with (Nat.min 160 (length buf)) by lia.
  reflexivity.
Qed.

(** X8.  Segment merging loses, duplicates and reorders no audio: after
    any sequence of [queueOrMergeIncomingSegment] calls, timer firings
    and timer cancellations, the buffers handed to
    [processIncomingAudio] followed by the still pending segments are,
    concatenated, exactly the queued audio in order.  Every processed
    buffer is non-empty, and an armed timer always has a pending
    segment to process. *)
Theorem merge_preserves_audio (evs : list Merge.mev) :
  let st := Merge.run_merge evs in
  concat (Merge.processed st) ++ concat (Merge.pendingUserSegments st)
    = concat (Merge.queued evs) /\
  Forall (fun m => m <> []) (Merge.processed st) /\
  Forall (fun m => m <> []) (Merge.pendingUserSegments st) /\
  (Merge.timerArmed st = true -> Merge.pendingUserSegments st <> []).
Proof.
  induction evs as [|e evs IH] using rev_ind; [simpl; repeat split; auto; discriminate|].
  cbv zeta in *. rewrite MergeFacts.run_merge_snoc, MergeFacts.queued_app, concat_app.
  destruct (Merge.run_merge evs) as [pend armed proc]; simpl in *.
  destruct IH as [Hc [Hp [Hq Ht]]].
  destruct e as [seg| |]; simpl.
  - destruct seg as [|x xs]; simpl; [rewrite !app_nil_r; auto|].
    rewrite concat_app, <- Hc. simpl. rewrite !app_nil_r, app_assoc.
    repeat split; auto.
    + apply Forall_app; split; auto. constructor; [discriminate | constructor].
    + intros _ H. apply app_eq_nil in H as [_ H]. discriminate.
  - unfold Merge.timer_fires. simpl. rewrite app_nil_r.
    destruct armed; simpl; [|repeat split; auto].
    rewrite MergeFacts.merged_concat, concat_app. simpl.
    split; [rewrite !app_nil_r; exact Hc|]. split; [|split; [constructor | discriminate]].
    apply Forall_app; split; auto. constructor; [|constructor].
    apply MergeFacts.concat_nonempty; auto.
  - rewrite app_nil_r. unfold Merge.cancel_pending. simpl. repeat split; auto. discriminate.
Qed.

(** X9.  [handleInboundMediaMessage] keeps the segment buffer
    consistent: if, before the call, the buffer is empty with
    [_segmentLastNonSilentIndex = -1] whenever no speech is active, and
    the index is [-1] or a valid position of the buffer, the same holds
    after the call. *)
Theorem handler_keeps_segment_invariant (cfg : Media.vad_cfg) (greet : option (list Z))
  (s : Media.media_state) (m : Media.media_msg) (now : Z) :
  MediaSegFacts.seg_inv s ->
  MediaSegFacts.seg_inv (fst (Media.handleInboundMediaMessage cfg greet s m now)).
Proof.
  intro H. exact (proj1 (MediaSegFacts.handle_seg cfg greet s m now) H).
Qed.

Lemma handler_keeps_segment_invariant_witness :
  let s := Media.mkMedia false false false None false false [] (-1) 0
             None None None None false [] in
  MediaSegFacts.seg_inv s /\
  MediaSegFacts.seg_inv
    (fst (Media.handleInboundMediaMessage Media.default_cfg (Some (repeat 0 400)) s
            (Media.mkMsg (Some "inbound"%string) (Some (repeat 0 160)) (Some "MZ1"%string))
            1000)).
Proof.
  intro s.
  assert (H : MediaSegFacts.seg_inv s)
    by (unfold MediaSegFacts.seg_inv; simpl; split; [auto | lia]).
  split; [exact H|]. exact (handler_keeps_segment_invariant _ _ _ _ _ H).
Defined.

(** X10.  A media frame starts a speech segment ([speech_start]) exactly
    when the track is accepted, the greeting is not in progress on
    entry, no speech is active, the frame has a payload, and either no
    warm-up is required or the frame's level exceeds the threshold and
    the warm-up count reaches the required number of frames.  Threshold
    and warm-up are the "while playing" ones when audio is being sent as
    the VAD runs: on entry, or, for the frame that binds the stream
    before [start], as left by the greeting send that its
    [onStreamSidReady] call starts synchronously (set while that send
    awaits after its first chunk, cleared by a greeting of at most one
    chunk).  The handler barges in ([requestStopAudio]) exactly on such
    a start while audio is being sent, and clears the merge timer
    exactly on such a start while the timer is armed. *)
Theorem speech_start_and_barge_in (cfg : Media.vad_cfg) (greet : option (list Z))
  (s : Media.media_state) (m : Media.media_msg) (now : Z) :
  let r := Media.handleInboundMediaMessage cfg greet s m now in
  let binds := negb (Media.startReceived s) && Media.js_truthy_str (Media.msgStreamSid m) in
  let playing :=
    match greet with
    | Some buf => if binds then (2 <=? Sched.totalChunks buf)%nat else Media.isSendingAudio s
    | None => Media.isSendingAudio s
    end in
  let threshold :=
    if playing then Media.VAD_THRESHOLD_WHILE_PLAYING cfg else Media.VAD_THRESHOLD cfg in
  let warmupNeeded :=
    if playing then Media.SPEECH_WARMUP_FRAMES_WHILE_PLAYING cfg
    else Media.SPEECH_WARMUP_FRAMES cfg in
  (In Media.SpeechStart (snd r) <->
     Media.track_ignored m = false /\ Media.greetingInProgress s = false /\
     Media.speechActive s = false /\
     exists audio, Media.payload m = Some audio /\
       (warmupNeeded = 0%nat \/
        ((IZR threshold < calculateAudioLevel audio)%R /\
         (warmupNeeded <= S (Media.speechWarmup s))%nat))) /\
  (In Media.RequestStop (snd r) <-> In Media.SpeechStart (snd r) /\ playing = true) /\
  (In Media.CancelPending (snd r) <->
     In Media.SpeechStart (snd r) /\ Media.pendingProcessTimer s = true).
Proof.
  pose proof (MediaSegFacts.handle_seg cfg greet s m now) as (_ & _ & _ & HS & HR & HC).
  pose proof (MediaSegFacts.bind_seg greet s m) as (Ha & _ & _ & Hw & _).
  pose proof (MediaSegFacts.bind_sending greet s m) as Hs.
  unfold Media.greeting_sync in Hs.
  set (s1 := fst (Media.bind_from_media greet s m)) in *.
  cbv zeta in *. rewrite <- Hs. rewrite HR, HC, HS. clear HS HR HC Hs.
  destruct (Media.track_ignored m); simpl;
    [split; [split; [discriminate | intros [H _]; discriminate] | tauto]|].
  destruct (Media.greetingInProgress s); simpl;
    [split; [split; [discriminate | intros (_ & H & _); discriminate] | tauto]|].
  destruct (Media.payload m) as [audio|]; simpl.
  - rewrite (MediaSegFacts.vad_starts_spec cfg s1 audio). cbv zeta. rewrite Ha, Hw.
    split; [|tauto]. split.
    + intros [H1 H2]. split; [reflexivity|]. split; [reflexivity|]. split; [exact H1|].
      exists audio. auto.
    + intros (_ & _ & H1 & a & Ha' & H2). injection Ha' as <-. auto.
  - split; [|tauto].
    split; [discriminate|]. intros (_ & _ & _ & a & Ha' & _). discriminate.
Qed.

(** X11.  The handler's merge bookkeeping matches its effects: the
    pending user segments after the call are the ones before it followed
    by the segments it hands to [queueOrMergeIncomingSegment], and the
    merge timer is armed afterwards exactly when a segment was queued
    in this call, or when it was armed before and no speech started. *)
Theorem handler_merge_bookkeeping (cfg : Media.vad_cfg) (greet : option (list Z))
  (s : Media.media_state) (m : Media.media_msg) (now : Z) :
  let r := Media.handleInboundMediaMessage cfg greet s m now in
  Media.pendingUserSegments (fst r) = Media.pendingUserSegments s ++ MediaSegFacts.queued_of (snd r) /\
  (Media.pendingProcessTimer (fst r) = true <->
     MediaSegFacts.queued_of (snd r) <> [] \/
     (Media.pendingProcessTimer s = true /\ ~ In Media.SpeechStart (snd r))).
Proof.
  pose proof (MediaSegFacts.handle_seg cfg greet s m now) as (_ & Hp & Ht & HS & _ & _).
  cbv zeta in *. split; [exact Hp|]. rewrite Ht, HS. clear Hp Ht HS.
  set (st := negb _ && _ && _).
  destruct (MediaSegFacts.queued_of _); [|split; [intros _; left; discriminate | reflexivity]].
  destruct st, (Media.pendingProcessTimer s); simpl; intuition congruence.
Qed.

(** X12.  In every reachable scheduler state, [isSendingAudio] is true
    exactly when the send of the active generation ([_activeAudioGen])
    is still in its chunk loop. *)
Theorem sending_flag_tracks_active_send (evs : list Sched.ev) :
  Sched.isSendingAudio (Sched.run evs) = true <->
  exists p i, In p (Sched.procs (Sched.run evs)) /\
    Sched.activeAudioGen (Sched.run evs) = Some (Sched.pgen p) /\
    Sched.pstatus p = Sched.Running i.
Proof. exact (SchedFlags.fi_sending _ (SchedFlags.flags_run evs)). Qed.

(** X13.  In every reachable scheduler state, while
    [greetingInProgress] is set, some send labelled ["greeting"] is
    still in its chunk loop. *)
Theorem greeting_flag_needs_running_greeting (evs : list Sched.ev) :
  Sched.greetingInProgress (Sched.run evs) = true ->
  exists p i, In p (Sched.procs (Sched.run evs)) /\
    Sched.is_greeting (Sched.popts p) = true /\ Sched.pstatus p = Sched.Running i.
Proof. exact (SchedFlags.fi_greeting _ (SchedFlags.flags_run evs)). Qed.

Lemma greeting_flag_needs_running_greeting_witness :
  Sched.greetingInProgress
    (Sched.run [Sched.EStart [1; 2] (Sched.mkOpts (Some "greeting"%string) true)]) = true /\
  exists p i,
    In p (Sched.procs
            (Sched.run [Sched.EStart [1; 2] (Sched.mkOpts (Some "greeting"%string) true)])) /\
    Sched.is_greeting (Sched.popts p) = true /\ Sched.pstatus p = Sched.Running i.
Proof.
  assert (H : Sched.greetingInProgress
    (Sched.run [Sched.EStart [1; 2] (Sched.mkOpts (Some "greeting"%string) true)]) = true)
    by reflexivity.
  split; [exact H|]. exact (greeting_flag_needs_running_greeting _ H).
Defined.

(** X14.  What each call of [sendAudioViaWebSocket] has written to the
    socket, in every reachable state: while its loop runs at index [i],
    its first [i] chunks in order; once completed, all its chunks and
    then its [mark]; once interrupted after [k] chunks, only its first
    [k] chunks, with [k] below the chunk count, and never its [mark]. *)
Theorem send_output_by_status (evs : list Sched.ev) (p : Sched.proc) :
  In p (Sched.procs (Sched.run evs)) ->
  let written := Sched.filter_gen (Sched.pgen p) (Sched.out (Sched.run evs)) in
  let chunks n :=
    map (fun j => Sched.WMedia (Sched.pgen p) (Sched.chunk (Sched.pbuf p) j)) (seq 0 n) in
  match Sched.pstatus p with
  | Sched.Running i => (i <= Sched.totalChunks (Sched.pbuf p))%nat /\ written = chunks i
  | Sched.Finished k true => written = chunks (Sched.totalChunks (Sched.pbuf p)) ++ [Sched.WMark (Sched.pgen p)]
  | Sched.Finished k false =>
      (k < Sched.totalChunks (Sched.pbuf p))%nat /\ written = chunks k /\
      ~ In (Sched.WMark (Sched.pgen p)) (Sched.out (Sched.run evs))
  end.
Proof.
  intro Hp. cbv zeta.
  pose proof (SchedInv.run_inv evs) as Hi.
  pose proof (SchedInv.iv_sent _ _ Hi p Hp) as Hs.
  assert (Hs' : Sched.filter_gen (Sched.pgen p) (Sched.out (Sched.run evs))
                = firstn (Sched.progress p) (Sched.expected p)).
  { apply Hs. pose proof (SchedInv.iv_gen _ _ Hi p Hp). lia. }
  clear Hs. unfold Sched.progress in Hs'.
  destruct (Sched.pstatus p) as [i|k [|]] eqn:Est.
  - pose proof (SchedInv.iv_bound _ _ Hi p i Hp Est) as Hb.
    split; [exact Hb|]. rewrite Hs'. apply SchedFacts.expected_prefix. exact Hb.
  - rewrite Hs', SchedFacts.expected_full. reflexivity.
  - pose proof (SchedFlags.fi_cut _ (SchedFlags.flags_run evs) p k Hp Est) as Hk.
    assert (Hw : Sched.filter_gen (Sched.pgen p) (Sched.out (Sched.run evs)) =
                 map (fun j => Sched.WMedia (Sched.pgen p) (Sched.chunk (Sched.pbuf p) j))
                     (seq 0 k))
      by (rewrite Hs'; apply SchedFacts.expected_prefix; lia).
    split; [exact Hk|]. split; [exact Hw|].
    intro Hm.
    assert (Hf : In (Sched.WMark (Sched.pgen p))
                    (Sched.filter_gen (Sched.pgen p) (Sched.out (Sched.run evs)))).
    { unfold Sched.filter_gen. apply filter_In. split; [exact Hm|]. simpl. apply Nat.eqb_refl. }
    rewrite Hw in Hf. apply in_map_iff in Hf as [j [Hj _]]. discriminate.
Qed.

Lemma send_output_by_status_witness :
  In (Sched.mkProc 1 (Sched.mkOpts None false) (repeat 0 400) (Sched.Finished 1 false))
     (Sched.procs (Sched.run [Sched.EStart (repeat 0 400) (Sched.mkOpts None false);
                              Sched.EChunk 1; Sched.EStop; Sched.EChunk 1])) /\
  Sched.filter_gen 1 (Sched.out (Sched.run [Sched.EStart (repeat 0 400) (Sched.mkOpts None false);
                                            Sched.EChunk 1; Sched.EStop; Sched.EChunk 1]))
    = [Sched.WMedia 1 (repeat 0 160)].
Proof.
  assert (H : In (Sched.mkProc 1 (Sched.mkOpts None false) (repeat 0 400) (Sched.Finished 1 false))
     (Sched.procs (Sched.run [Sched.EStart (repeat 0 400) (Sched.mkOpts None false);
                              Sched.EChunk 1; Sched.EStop; Sched.EChunk 1])))
    by (vm_compute; left; reflexivity).
  split; [exact H|].
  exact (proj1 (proj2 (send_output_by_status _ _ H))).
Defined.

(** X15.  However the services answer, the turn loop only extends the
    conversation log and the spoken replies.  Each iteration that runs
    to its end adds one outcome: an empty transcription adds the
    re-prompt to the spoken replies and nothing to the log; any other
    segment appends one user message [u] and one assistant reply [a] to
    the log and speaks exactly [a].  An iteration that throws speaks
    nothing and may leave one last user message [u'] in the log with no
    reply.  Every logged user message is non-empty and already trimmed. *)
Theorem turn_loop_log_shape
  (transcribe : list Z -> option (list Z)) (classify : bool -> list Z -> list Z)
  (chat : list (Turn.role * list Z) -> option (list Z))
  (write : list (Turn.role * list Z) -> Turn.role -> list Z -> bool)
  (queue : list (list Z)) (st : Turn.turn_state) :
  exists (outs : list (option (list Z * list Z))) (last : option (list Z)),
    Turn.conversations (fst (Turn.drain transcribe classify chat write queue st))
      = Turn.conversations st ++
        concat (map (fun o => match o with
                              | Some (u, a) => [(Turn.User, u); (Turn.Assistant, a)]
                              | None => []
                              end) outs) ++
        match last with Some u' => [(Turn.User, u')] | None => [] end /\
    Turn.said (fst (Turn.drain transcribe classify chat write queue st))
      = Turn.said st ++
        map (fun o => match o with
                      | Some (_, a) => a
                      | None => Turn.EMPTY_TRANSCRIPTION_REPLY
                      end) outs /\
    Forall (fun o => match o with
                     | Some (u, _) => u <> [] /\ JsStr.js_trim u = u
                     | None => True
                     end) outs /\
    match last with Some u' => u' <> [] /\ JsStr.js_trim u' = u' | None => True end.
Proof. exact (TurnFacts.drain_outcomes transcribe classify chat write queue st). Qed.

(** X16.  The turn loop leaves segments queued only after an iteration
    that throws: either the whole queue is consumed, or the loop stopped
    at a non-empty segment whose iteration threw, every segment before it
    was processed without exception, the final state is the one that
    iteration left, and every segment after it stays queued in order. *)
Theorem turn_loop_stops_only_on_exception
  (transcribe : list Z -> option (list Z)) (classify : bool -> list Z -> list Z)
  (chat : list (Turn.role * list Z) -> option (list Z))
  (write : list (Turn.role * list Z) -> Turn.role -> list Z -> bool)
  (queue : list (list Z)) (st : Turn.turn_state) :
  snd (Turn.drain transcribe classify chat write queue st) = [] \/
  exists pre seg stp,
    queue = pre ++ seg :: snd (Turn.drain transcribe classify chat write queue st) /\
    seg <> [] /\
    Turn.drain transcribe classify chat write pre st = (stp, []) /\
    Turn.process_segment transcribe classify chat write seg stp
      = (fst (Turn.drain transcribe classify chat write queue st), false).
Proof. exact (TurnFacts.drain_rest transcribe classify chat write queue st). Qed.

(** X18.  When every Firestore write succeeds and the chat call always
    answers, the turn loop leaves segments queued only at a non-empty
    segment whose transcription failed; that segment alone is dropped
    and every segment after it stays queued in order. *)
Theorem turn_loop_stops_only_on_failed_transcription
  (transcribe : list Z -> option (list Z)) (classify : bool -> list Z -> list Z)
  (chat : list (Turn.role * list Z) -> option (list Z))
  (write : list (Turn.role * list Z) -> Turn.role -> list Z -> bool)
  (queue : list (list Z)) (st : Turn.turn_state) :
  (forall log r m, write log r m = true) ->
  (forall log, chat log <> None) ->
  snd (Turn.drain transcribe classify chat write queue st) = [] \/
  exists pre seg,
    queue = pre ++ seg :: snd (Turn.drain transcribe classify chat write queue st) /\
    seg <> [] /\ transcribe seg = None.
Proof.
  intros Hw Hc.
  destruct (TurnFacts.drain_rest transcribe classify chat write queue st)
    as [H|(pre & seg & stp & Hq & Hn & _ & Hp)]; [left; exact H|].
  right. exists pre, seg. split; [exact Hq|]. split; [exact Hn|].
  exact (TurnFacts.process_segment_fails_on_transcribe _ _ _ _ _ _ _ Hw Hc Hp).
Qed.

Lemma turn_loop_stops_only_on_failed_transcription_witness :
  ((forall (log : list (Turn.role * list Z)) (r : Turn.role) (m : list Z),
      (fun _ _ _ => true) log r m = true) /\
   (forall log : list (Turn.role * list Z),
      (fun _ => Some (JsStr.units "ok")) log <> None)) /\
  Turn.drain (fun seg => match seg with [1] => None | _ => Some (JsStr.units "hello") end)
    (fun _ _ => JsStr.units "normal") (fun _ => Some (JsStr.units "ok")) (fun _ _ _ => true)
    [[0]; [1]; [2]] (Turn.mkTurn [] [] false false)
  = (Turn.mkTurn [(Turn.User, JsStr.units "hello"); (Turn.Assistant, JsStr.units "ok")]
       [JsStr.units "ok"] false false, [[2]]).
Proof.
  split; [split; [reflexivity | discriminate]|].
  destruct (turn_loop_stops_only_on_failed_transcription
              (fun seg => match seg with [1] => None | _ => Some (JsStr.units "hello") end)
              (fun _ _ => JsStr.units "normal") (fun _ => Some (JsStr.units "ok"))
              (fun _ _ _ => true) [[0]; [1]; [2]] (Turn.mkTurn [] [] false false)
              (fun _ _ _ => eq_refl) (fun _ => ltac:(discriminate))) as [H|H];
    vm_compute; reflexivity.
Defined.

(** X17.  [stopOngoingAudio] on an interruptible send of the active
    generation takes effect at the very next loop iteration: after
    [requestStopAudio] and one iteration, the send is finished as
    interrupted after the chunks it had already sent, nothing more
    (no chunk, no [mark]) has been written, [isSendingAudio] is false and
    the stop request is consumed. *)
Theorem stop_takes_effect_next_iteration (evs : list Sched.ev) (p : Sched.proc) (i : nat) :
  In p (Sched.procs (Sched.run evs)) ->
  Sched.activeAudioGen (Sched.run evs) = Some (Sched.pgen p) ->
  Sched.uninterruptibleAudioGen (Sched.run evs) <> Some (Sched.pgen p) ->
  Sched.pstatus p = Sched.Running i ->
  (i < Sched.totalChunks (Sched.pbuf p))%nat ->
  let s' := Sched.run (evs ++ [Sched.EStop; Sched.EChunk (Sched.pgen p)]) in
  Sched.find_proc (Sched.pgen p) s'
    = Some (Sched.mkProc (Sched.pgen p) (Sched.popts p) (Sched.pbuf p) (Sched.Finished i false)) /\
  Sched.out s' = Sched.out (Sched.run evs) /\
  Sched.isSendingAudio s' = false /\
  Sched.stopAudioGen s' = None.
Proof.
  intros Hp Ha Hu Hs Hlt. cbv zeta.
  replace (Sched.run (evs ++ [Sched.EStop; Sched.EChunk (Sched.pgen p)]))
    with (Sched.chunk_step (Sched.pgen p) (Sched.requestStopAudio (Sched.run evs)))
    by (unfold Sched.run; rewrite fold_left_app; reflexivity).
  set (s := Sched.run evs) in *.
  pose proof (SchedInv.run_inv evs) as Hi. fold s in Hi.
  pose proof (SchedInv.iv_nodup _ _ Hi) as Hnd.
  assert (Hsend : Sched.isSendingAudio s = true).
  { apply (SchedFlags.fi_sending _ (SchedFlags.flags_run evs)). exists p, i. auto. }
  assert (Hst : Sched.requestStopAudio s = Sched.with_stop s (Some (Sched.pgen p))).
  { unfold Sched.requestStopAudio. rewrite Hsend, Ha. simpl.
    destruct (Sched.uninterruptibleAudioGen s) as [u|]; [|reflexivity].
    simpl. destruct (Nat.eqb_spec u (Sched.pgen p)) as [->|Hne]; [contradiction|].
    rewrite andb_false_r. reflexivity. }
  rewrite Hst. set (s1 := Sched.with_stop s (Some (Sched.pgen p))).
  assert (Hc : Sched.chunk_step (Sched.pgen p) s1 = Sched.finish p i true s1).
  { unfold Sched.chunk_step, Sched.find_proc. subst s1. simpl.
    rewrite (SchedInv.find_in_nodup _ p Hnd Hp), Hs.
    apply Nat.ltb_lt in Hlt. rewrite Hlt. simpl. rewrite Nat.eqb_refl. reflexivity. }
  rewrite Hc.
  pose proof (SchedInv.finish_fields p i true s1) as (_ & _ & Hpr & Ho & _).
  pose proof (SchedFlags.finish_flags p i true s1) as [Fs _].
  set (s2 := Sched.finish p i true s1) in *.
  split; [unfold Sched.find_proc; rewrite Hpr; apply SchedInv.find_set_status; assumption|].
  split; [exact Ho|].
  assert (Hm : Sched.opt_eqb (Sched.activeAudioGen s1) (Some (Sched.pgen p)) = true)
    by (apply SchedFacts.opt_eqb_spec; exact Ha).
  rewrite Hm in Fs. split; [exact Fs|].
  subst s2. unfold Sched.finish. rewrite Hm.
  assert (Hg : Sched.opt_eqb (Sched.stopAudioGen s1) (Some (Sched.pgen p)) = true)
    by (apply SchedFacts.opt_eqb_spec; reflexivity).
  rewrite Hg. destruct (Sched.is_greeting (Sched.popts p)); reflexivity.
Qed.

Lemma stop_takes_effect_next_iteration_witness :
  (In (Sched.mkProc 1 (Sched.mkOpts None false) (repeat 0 400) (Sched.Running 1)) (Sched.procs (Sched.run [Sched.EStart (repeat 0 400) (Sched.mkOpts None false); Sched.EChunk 1])) /\
   Sched.activeAudioGen (Sched.run [Sched.EStart (repeat 0 400) (Sched.mkOpts None false); Sched.EChunk 1]) = Some 1%nat /\
   Sched.uninterruptibleAudioGen (Sched.run [Sched.EStart (repeat 0 400) (Sched.mkOpts None false); Sched.EChunk 1]) <> Some 1%nat /\
   (1 < Sched.totalChunks (repeat (0:Z) 400))%nat) /\
  Sched.find_proc 1 (Sched.run ([Sched.EStart (repeat 0 400) (Sched.mkOpts None false); Sched.EChunk 1] ++ [Sched.EStop; Sched.EChunk 1]))
    = Some (Sched.mkProc 1 (Sched.mkOpts None false) (repeat 0 400) (Sched.Finished 1 false)).
Proof.
  assert (H1 : In (Sched.mkProc 1 (Sched.mkOpts None false) (repeat 0 400) (Sched.Running 1)) (Sched.procs (Sched.run [Sched.EStart (repeat 0 400) (Sched.mkOpts None false); Sched.EChunk 1])))
    by (vm_compute; left; reflexivity).
  assert (H2 : Sched.activeAudioGen (Sched.run [Sched.EStart (repeat 0 400) (Sched.mkOpts None false); Sched.EChunk 1]) = Some 1%nat)
    by reflexivity.
  assert (H3 : Sched.uninterruptibleAudioGen (Sched.run [Sched.EStart (repeat 0 400) (Sched.mkOpts None false); Sched.EChunk 1]) <> Some 1%nat)
    by (vm_compute; discriminate).
  assert (H4 : (1 < Sched.totalChunks (repeat (0:Z) 400))%nat) by (vm_compute; lia).
  split; [auto|].
  exact (proj1 (stop_takes_effect_next_iteration _ _ 1 H1 H2 H3 eq_refl H4)).
Defined.

End Extras.
